(** * Fixed-capacity object allocators of [allocator.hpp]

    A shallow embedding of the allocator strategies ([ArrayAllocator],
    [HeapAllocator], [StackAllocator], [BlockAllocator]) and of the
    [ObjectPool] adapter, followed by the properties the specification
    states about them.

    Conventions.
    - A pointer is its address, an integer; [nullptr] is address 0.
    - [sizeof(T)] is the parameter [sz]; the address of the member array
      [m_data] is the parameter [base], so that [&m_data[sizeof(T) * i]]
      is [base + sz * i].
    - The only exception the source throws is [std::bad_alloc]; the
      constructors of [error] name the [throw] statement that raised it.
    - An access outside one of the allocator's own arrays, or a read
      of memory that was never written, is undefined behaviour in C++:
      the operation then yields [Undefined].
    - Two points are given in two readings.  The operations named as in
      the source follow the program as it runs with libstdc++ and a
      flat memory: [std::pop_heap] and [std::push_heap] move entries on
      any array, and a store lands wherever its address is.  The
      operations with the suffix [_iso] follow the C++ standard: a call
      of [std::pop_heap] or [std::push_heap] on a range that is not a
      heap, and a store outside the block that [std::malloc] returned,
      are undefined there.
    - The [std::cout] tracing lines do not touch allocator state and are
      left out.  [MallocAllocator] only forwards to [std::malloc] and
      [std::free] and has no state of its own; it is not modelled. *)

From Stdlib Require Import ZArith Lia List Bool.
From stdpp Require Import base decidable list gmap strings.

Local Open Scope Z_scope.

(** ** Machine integers and pointers *)

Definition INT_MAX : Z := 2147483647.
Definition SIZE_MAX : Z := 18446744073709551615.

(** Conversion to [int] (32 bits, two's complement). *)
Definition int_wrap (z : Z) : Z := (z + 2 ^ 31) mod 2 ^ 32 - 2 ^ 31.

(** Conversion to [std::size_t] (64 bits, unsigned): what the usual
    arithmetic conversions do to an [int] compared with a [size_t]. *)
Definition size_t_of (z : Z) : Z := z mod 2 ^ 64.

Definition ptr := Z.
Definition nullptr : ptr := 0.

(** ** Outcomes of an operation *)

Inductive error : Set :=
| OutOfCapacity
| InvalidSize
| ConfigurationError.

(** Every [error] is the same C++ exception. *)
Inductive cpp_exception : Set := bad_alloc.
Definition exception_of (e : error) : cpp_exception := bad_alloc.

Inductive outcome (A St : Type) : Type :=
| Returned (a : A) (s : St)
| Thrown (e : error) (s : St)
| Undefined.

Arguments Returned {A St} a s.
Arguments Thrown {A St} e s.
Arguments Undefined {A St}.

(** Sequencing of two operations on the same object; an exception or
    undefined behaviour ends the sequence. *)
Definition bind {A B St} (m : St -> outcome A St) (k : A -> St -> outcome B St)
  : St -> outcome B St :=
  fun s => match m s with
           | Returned a s' => k a s'
           | Thrown e s' => Thrown e s'
           | Undefined => Undefined
           end.

Definition ret {A St} (a : A) : St -> outcome A St := fun s => Returned a s.

Declare Scope alloc_scope.
Delimit Scope alloc_scope with alloc.
Notation "'let*' x ':=' m 'in' k" := (bind m (fun x => k))
  (at level 10, x name, m at level 100, k at level 200) : alloc_scope.

(** ** The [Allocator<T>] interface *)

Class Allocator (St : Type) : Type := {
  allocate : St -> outcome ptr St;
  deallocate : ptr -> St -> outcome unit St
}.

(** The same two virtual calls, under names that no strategy module
    redefines. *)
Abbreviation Allocator_allocate := allocate (only parsing).
Abbreviation Allocator_deallocate := deallocate (only parsing).

(** Where the object lives and how large it is: the slot size is
    positive, the backing store does not start at the null address,
    the capacity fits an [int] and the store fits the address space. *)
Definition layout_ok (sz base : Z) (N : nat) : Prop :=
  0 < sz /\ 0 < base /\ Z.of_nat N <= INT_MAX /\ base + sz * Z.of_nat N <= SIZE_MAX.

(** Address of slot [i] of a backing store: [&m_data[sizeof(T) * i]]. *)
Definition slot (sz base : Z) (i : nat) : ptr := base + sz * Z.of_nat i.

(** Two [sz]-byte regions starting at [p] and [q] share no byte. *)
Definition disjoint_slots (sz : Z) (p q : ptr) : Prop := p + sz <= q \/ q + sz <= p.

(** ** [ArrayAllocator<T, N>] *)

Module ArrayAllocator.
Section Defs.
Variables (sz base : Z) (N : nat).

Record t : Type := Build { m_used : list bool }.

(** Constructor: every flag is cleared. *)
Definition init : t := {| m_used := replicate N false |}.

(** The scan [for (int i = 0; i < N; ++i)] of [allocate], entered at
    index [i] with [fuel] iterations left. *)
Fixpoint allocate_from (fuel i : nat) (s : t) : outcome ptr t :=
  match fuel with
  | O => Thrown OutOfCapacity s
  | S fuel' =>
      match m_used s !! i with
      | Some false => Returned (slot sz base i) {| m_used := <[i := true]> (m_used s) |}
      | Some true => allocate_from fuel' (S i) s
      | None => Undefined
      end
  end.

Definition allocate (s : t) : outcome ptr t := allocate_from N 0 s.

(** [auto i = ((unsigned char* )p - m_data) / sizeof(T); m_used[i] = false;] *)
Definition deallocate (p : ptr) (s : t) : outcome unit t :=
  let i := Z.to_nat (size_t_of (p - base) / sz) in
  if decide (i < length (m_used s))%nat
  then Returned tt {| m_used := <[i := false]> (m_used s) |}
  else Undefined.

End Defs.
End ArrayAllocator.

#[export] Instance ArrayAllocator_Allocator (sz base : Z) (N : nat)
  : Allocator ArrayAllocator.t :=
  {| allocate := ArrayAllocator.allocate sz base N;
     deallocate := ArrayAllocator.deallocate sz base |}.

(** ** [HeapAllocator<T, N>] *)

Module HeapAllocator.

(** [enum State { FREE = 1, USED = 0 }] *)
Inductive State : Set := FREE | USED.

Definition State_value (st : State) : Z :=
  match st with FREE => 1 | USED => 0 end.

Record Entry : Type := mkEntry { state : State; p : ptr }.

(** [Entry::operator<] compares the states only. *)
Definition Entry_lt (a b : Entry) : bool := State_value (state a) <? State_value (state b).

#[export] Instance Entry_inhabited : Inhabited Entry := populate (mkEntry USED nullptr).

(** *** The heap algorithms of [<algorithm>]

    [std::make_heap], [std::pop_heap] and [std::push_heap] are library
    code; they are transcribed from libstdc++ ([bits/stl_heap.h]),
    whose helper names are kept.  Indices are of type [ptrdiff_t] there
    and never negative; they are natural numbers here, and
    [(holeIndex - 1) / 2] is 0 at the root in both.  As in that code,
    the functions run on any array; the preconditions that the standard
    puts on them are stated further down, in [pop_heap_iso] and
    [push_heap_iso]. *)

(** The [while] loop of [__push_heap]. *)
Fixpoint push_heap_loop (fuel : nat) (a : list Entry) (holeIndex topIndex : nat)
    (value : Entry) : list Entry :=
  let parent := ((holeIndex - 1) / 2)%nat in
  match fuel with
  | O => <[holeIndex := value]> a
  | S fuel' =>
      if (topIndex <? holeIndex)%nat && Entry_lt (a !!! parent) value
      then push_heap_loop fuel' (<[holeIndex := a !!! parent]> a) parent topIndex value
      else <[holeIndex := value]> a
  end.

(** The hole moves to its parent at every iteration, so [holeIndex]
    iterations are enough. *)
Definition __push_heap (a : list Entry) (holeIndex topIndex : nat) (value : Entry)
  : list Entry :=
  push_heap_loop holeIndex a holeIndex topIndex value.

(** [std::push_heap(first, last)] on the whole array [a]. *)
Definition push_heap (a : list Entry) : list Entry :=
  match a with
  | [] => a
  | _ => __push_heap a (length a - 1) 0 (a !!! (length a - 1)%nat)
  end.

(** The [while] loop of [__adjust_heap]; returns the array, the hole
    and [secondChild]. *)
Fixpoint adjust_heap_loop (fuel : nat) (a : list Entry) (holeIndex secondChild len : nat)
  : list Entry * nat * nat :=
  match fuel with
  | O => (a, holeIndex, secondChild)
  | S fuel' =>
      if (secondChild <? (len - 1) / 2)%nat then
        let sc := (2 * (secondChild + 1))%nat in
        let sc := if Entry_lt (a !!! sc) (a !!! (sc - 1)%nat) then (sc - 1)%nat else sc in
        adjust_heap_loop fuel' (<[holeIndex := a !!! sc]> a) sc sc len
      else (a, holeIndex, secondChild)
  end.

Definition __adjust_heap (a : list Entry) (holeIndex len : nat) (value : Entry)
  : list Entry :=
  let topIndex := holeIndex in
  let '(a, holeIndex, secondChild) := adjust_heap_loop len a holeIndex holeIndex len in
  let '(a, holeIndex) :=
    if Nat.even len && (secondChild =? (len - 2) / 2)%nat then
      let sc := (2 * (secondChild + 1))%nat in
      (<[holeIndex := a !!! (sc - 1)%nat]> a, (sc - 1)%nat)
    else (a, holeIndex) in
  __push_heap a holeIndex topIndex value.

(** [std::pop_heap(first, last)] on the whole array [a]: nothing for
    fewer than two elements; otherwise the last element is saved, the
    root is moved to the last position and the saved value is put back
    in the heap of the first [length a - 1] elements. *)
Definition pop_heap (a : list Entry) : list Entry :=
  if (1 <? length a)%nat then
    let last := (length a - 1)%nat in
    let value := a !!! last in
    __adjust_heap (<[last := a !!! 0%nat]> a) 0 last value
  else a.

(** The [while (true)] loop of [__make_heap], from [parent] down to 0. *)
Fixpoint make_heap_loop (parent : nat) (a : list Entry) : list Entry :=
  let a := __adjust_heap a parent (length a) (a !!! parent) in
  match parent with
  | O => a
  | S parent' => make_heap_loop parent' a
  end.

Definition make_heap (a : list Entry) : list Entry :=
  if (length a <? 2)%nat then a else make_heap_loop ((length a - 2) / 2) a.

(** *** The preconditions of the standard

    [std::is_heap] on the first [len] entries of [a]: no entry is
    greater than its parent. *)
Definition is_heap (a : list Entry) (len : nat) : bool :=
  forallb (fun child => negb (Entry_lt (a !!! ((child - 1) / 2)%nat) (a !!! child)))
    (seq 1 (len - 1)).

(** [std::pop_heap(first, last)] requires a non-empty heap in
    [first, last); [None] is undefined behaviour. *)
Definition pop_heap_iso (a : list Entry) : option (list Entry) :=
  if (0 <? length a)%nat && is_heap a (length a) then Some (pop_heap a) else None.

(** [std::push_heap(first, last)] requires a heap in [first, last - 1). *)
Definition push_heap_iso (a : list Entry) : option (list Entry) :=
  if (0 <? length a)%nat && is_heap a (length a - 1) then Some (push_heap a) else None.

Section Defs.
Variables (sz base : Z) (N : nat).

Record t : Type := Build { m_entry : list Entry; m_available : Z }.

(** Constructor. *)
Definition init : t :=
  {| m_entry := make_heap (map (fun i => mkEntry FREE (slot sz base i)) (seq 0 N));
     m_available := int_wrap (Z.of_nat N) |}.

Definition allocate (s : t) : outcome ptr t :=
  if m_available s <=? 0 then Thrown OutOfCapacity s
  else
    match m_entry s !! 0%nat with
    | None => Undefined
    | Some e =>
        let ent := pop_heap (m_entry s) in
        let avail := int_wrap (m_available s - 1) in
        if decide (0 <= avail < Z.of_nat (length ent))
        then Returned (p e)
               {| m_entry := <[Z.to_nat avail := mkEntry USED nullptr]> ent;
                  m_available := avail |}
        else Undefined
    end.

Definition deallocate (q : ptr) (s : t) : outcome unit t :=
  if decide (q = nullptr) then Returned tt s
  else if Z.of_nat N <=? size_t_of (m_available s) then Returned tt s
  else
    if decide (0 <= m_available s < Z.of_nat (length (m_entry s)))
    then Returned tt
           {| m_entry := push_heap (<[Z.to_nat (m_available s) := mkEntry FREE q]> (m_entry s));
              m_available := int_wrap (m_available s + 1) |}
    else Undefined.

(** [allocate] and [deallocate] under the standard's preconditions. *)
Definition allocate_iso (s : t) : outcome ptr t :=
  if m_available s <=? 0 then Thrown OutOfCapacity s
  else
    match m_entry s !! 0%nat with
    | None => Undefined
    | Some e =>
        match pop_heap_iso (m_entry s) with
        | None => Undefined
        | Some ent =>
            let avail := int_wrap (m_available s - 1) in
            if decide (0 <= avail < Z.of_nat (length ent))
            then Returned (p e)
                   {| m_entry := <[Z.to_nat avail := mkEntry USED nullptr]> ent;
                      m_available := avail |}
            else Undefined
        end
    end.

Definition deallocate_iso (q : ptr) (s : t) : outcome unit t :=
  if decide (q = nullptr) then Returned tt s
  else if Z.of_nat N <=? size_t_of (m_available s) then Returned tt s
  else
    if decide (0 <= m_available s < Z.of_nat (length (m_entry s)))
    then
      match push_heap_iso (<[Z.to_nat (m_available s) := mkEntry FREE q]> (m_entry s)) with
      | None => Undefined
      | Some ent => Returned tt {| m_entry := ent;
                                   m_available := int_wrap (m_available s + 1) |}
      end
    else Undefined.

End Defs.
End HeapAllocator.

#[export] Instance HeapAllocator_Allocator (N : nat) : Allocator HeapAllocator.t :=
  {| allocate := HeapAllocator.allocate;
     deallocate := HeapAllocator.deallocate N |}.

(** The same allocator under the standard's preconditions; it is named
    where it is meant. *)
Definition HeapAllocator_iso_Allocator (N : nat) : Allocator HeapAllocator.t :=
  {| allocate := HeapAllocator.allocate_iso;
     deallocate := HeapAllocator.deallocate_iso N |}.

(** ** [StackAllocator<T, N>] *)

Module StackAllocator.
Section Defs.
Variables (sz base : Z) (N : nat).

Record t : Type := Build { m_stack : list ptr; m_allocated : Z; m_available : Z }.

(** Constructor: both counters are zero; the [std::array] member is
    default-initialised, so its [N] elements hold whatever [junk] was
    in memory. *)
Definition init (junk : list ptr) : t :=
  {| m_stack := junk; m_allocated := 0; m_available := 0 |}.

Definition allocate (s : t) : outcome ptr t :=
  if (m_available s <=? 0) && (Z.of_nat N <=? size_t_of (m_allocated s))
  then Thrown OutOfCapacity s
  else if 0 <? m_available s then
    (* return m_stack[--m_available]; *)
    let avail := int_wrap (m_available s - 1) in
    if decide (0 <= avail) then
      match m_stack s !! Z.to_nat avail with
      | Some q => Returned q {| m_stack := m_stack s;
                                m_allocated := m_allocated s;
                                m_available := avail |}
      | None => Undefined
      end
    else Undefined
  else
    (* auto p = m_data + sizeof(T) * m_allocated; m_allocated++; *)
    Returned (base + sz * size_t_of (m_allocated s))
      {| m_stack := m_stack s;
         m_allocated := int_wrap (m_allocated s + 1);
         m_available := m_available s |}.

(** [m_stack[m_available++] = p;] *)
Definition deallocate (q : ptr) (s : t) : outcome unit t :=
  if decide (0 <= m_available s < Z.of_nat (length (m_stack s)))
  then Returned tt {| m_stack := <[Z.to_nat (m_available s) := q]> (m_stack s);
                      m_allocated := m_allocated s;
                      m_available := int_wrap (m_available s + 1) |}
  else Undefined.

End Defs.
End StackAllocator.

#[export] Instance StackAllocator_Allocator (sz base : Z) (N : nat)
  : Allocator StackAllocator.t :=
  {| allocate := StackAllocator.allocate sz base N;
     deallocate := StackAllocator.deallocate |}.

(** ** [BlockAllocator<T, ChunksPerBlock>]

    The source spells the chunk type [Chuck] where it declares [Chunk];
    the two are read as one type.  A chunk is addressed by its first
    byte, where its [next] link is stored while it is free. *)

Module BlockAllocator.

(** What lies outside the allocator object: the requests made to
    [std::malloc] (oldest first, in bytes), the link words written to
    memory, and the lines sent to [std::cerr]. *)
Record world : Type := mkWorld {
  malloc_log : list Z;
  memory : gmap Z ptr;
  cerr : list string
}.

Record t : Type := Build { m_head : ptr; env : world }.

Section Defs.
(** [sz] is [sizeof(T)], [ptr_size] is [sizeof(T* )],
    [block_addr i] is the address [std::malloc] returns for the
    request number [i] of the program. *)
Variables (sz ptr_size : Z) (ChunksPerBlock : nat) (block_addr : nat -> ptr).

Definition empty_world : world :=
  {| malloc_log := []; memory := ∅; cerr := [] |}.

(** Constructor: [m_head(nullptr)]. *)
Definition init : t := {| m_head := nullptr; env := empty_world |}.

(** The loop of [allocate_block]: [n] times, link [chunk] to the
    address [chunk_size] bytes further and move there. Returns the
    memory and the final value of [chunk]. *)
Fixpoint thread_chunks (n : nat) (chunk_size : Z) (chunk : ptr) (m : gmap Z ptr)
  : gmap Z ptr * ptr :=
  match n with
  | O => (m, chunk)
  | S n' =>
      let next := chunk + chunk_size in
      thread_chunks n' chunk_size next (<[chunk := next]> m)
  end.

(** [allocate_block(chunk_size)]: the head of the new block, or
    [None] when [std::malloc] returned null, which the source
    dereferences.  The store after the loop goes to the address reached
    by the loop, wherever that is; memory is flat.  [allocate_block_iso]
    below is the reading in which a store outside the block is
    undefined. *)
Definition allocate_block (chunk_size : Z) (w : world) : option (ptr * world) :=
  let block_size := size_t_of (chunk_size * Z.of_nat ChunksPerBlock) in
  let head := block_addr (length (malloc_log w)) in
  if decide (head = nullptr) then None
  else
    let '(m, chunk) := thread_chunks ChunksPerBlock chunk_size head (memory w) in
    Some (head, {| malloc_log := malloc_log w ++ [block_size];
                   memory := <[chunk := nullptr]> m;
                   cerr := cerr w |}).

(** The last three lines of [allocate]: pop the head of the free list. *)
Definition pop_chunk (s : t) : outcome ptr t :=
  match memory (env s) !! m_head s with
  | Some next => Returned (m_head s) {| m_head := next; env := env s |}
  | None => Undefined
  end.

Definition size_message : string :=
  "object size less than pointer size" +:+ String (Ascii.ascii_of_nat 10) EmptyString.

Definition allocate (s : t) : outcome ptr t :=
  if decide (m_head s = nullptr) then
    if sz <? ptr_size then
      Thrown ConfigurationError
        {| m_head := m_head s;
           env := {| malloc_log := malloc_log (env s);
                     memory := memory (env s);
                     cerr := cerr (env s) ++ [size_message] |} |}
    else
      match allocate_block sz (env s) with
      | Some (head, w) => pop_chunk {| m_head := head; env := w |}
      | None => Undefined
      end
  else pop_chunk s.

(** A store of one link word at [q] lies inside the block of
    [block_size] bytes at [head]. *)
Definition link_in_block (head block_size q : Z) : bool :=
  (head <=? q) && (q + ptr_size <=? head + block_size).

(** The loop of [allocate_block] under the standard: a store outside
    the block is undefined behaviour, [None]. *)
Fixpoint thread_chunks_iso (n : nat) (chunk_size head block_size : Z) (chunk : ptr)
    (m : gmap Z ptr) : option (gmap Z ptr * ptr) :=
  match n with
  | O => Some (m, chunk)
  | S n' =>
      if link_in_block head block_size chunk then
        let next := chunk + chunk_size in
        thread_chunks_iso n' chunk_size head block_size next (<[chunk := next]> m)
      else None
  end.

Definition allocate_block_iso (chunk_size : Z) (w : world) : option (ptr * world) :=
  let block_size := size_t_of (chunk_size * Z.of_nat ChunksPerBlock) in
  let head := block_addr (length (malloc_log w)) in
  if decide (head = nullptr) then None
  else
    match thread_chunks_iso ChunksPerBlock chunk_size head block_size head (memory w) with
    | Some (m, chunk) =>
        if link_in_block head block_size chunk then
          Some (head, {| malloc_log := malloc_log w ++ [block_size];
                         memory := <[chunk := nullptr]> m;
                         cerr := cerr w |})
        else None
    | None => None
    end.

Definition allocate_iso (s : t) : outcome ptr t :=
  if decide (m_head s = nullptr) then
    if sz <? ptr_size then
      Thrown ConfigurationError
        {| m_head := m_head s;
           env := {| malloc_log := malloc_log (env s);
                     memory := memory (env s);
                     cerr := cerr (env s) ++ [size_message] |} |}
    else
      match allocate_block_iso sz (env s) with
      | Some (head, w) => pop_chunk {| m_head := head; env := w |}
      | None => Undefined
      end
  else pop_chunk s.

(** [chunk->next = m_head; m_head = chunk;] *)
Definition deallocate (q : ptr) (s : t) : outcome unit t :=
  if decide (q = nullptr) then Undefined
  else Returned tt
         {| m_head := q;
            env := {| malloc_log := malloc_log (env s);
                      memory := <[q := m_head s]> (memory (env s));
                      cerr := cerr (env s) |} |}.

(** The free list starting at [q], as the list of its chunks: follow
    the links until null, for at most [fuel] chunks. *)
Fixpoint chain (fuel : nat) (m : gmap Z ptr) (q : ptr) : list ptr :=
  match fuel with
  | O => []
  | S fuel' =>
      if decide (q = nullptr) then []
      else q :: match m !! q with
                | Some next => chain fuel' m next
                | None => []
                end
  end.

(** The chunk at [q] lies inside the block of [size] bytes at [head]. *)
Definition in_block (head size q : Z) : Prop := head <= q /\ q + sz <= head + size.

End Defs.
End BlockAllocator.

#[export] Instance BlockAllocator_Allocator (sz ptr_size : Z) (K : nat) (block_addr : nat -> ptr)
  : Allocator BlockAllocator.t :=
  {| allocate := BlockAllocator.allocate sz ptr_size K block_addr;
     deallocate := BlockAllocator.deallocate |}.

(** ** [ObjectPool<T, Allocator>] *)

Module ObjectPool.
Section Defs.
Context {St : Type} `{Allocator St}.
(** [sizeof(T)] *)
Variable sizeof_T : Z.

Record t : Type := Build { m_allocator : St }.

(** An operation of the member [m_allocator], seen from the pool. *)
Definition on_member {A} (o : outcome A St) : outcome A t :=
  match o with
  | Returned a s => Returned a {| m_allocator := s |}
  | Thrown e s => Thrown e {| m_allocator := s |}
  | Undefined => Undefined
  end.

Definition allocate (n : Z) (s : t) : outcome ptr t :=
  if decide (sizeof_T <> n) then Thrown InvalidSize s
  else on_member (Allocator_allocate (m_allocator s)).

Definition deallocate (q : ptr) (s : t) : outcome unit t :=
  on_member (Allocator_deallocate q (m_allocator s)).

End Defs.
End ObjectPool.

(** ** Call sequences

    A client of an allocator: it calls [allocate] and [deallocate] in
    some order and keeps the pointers it was given and has not returned
    yet (most recent first). *)

Inductive call : Set :=
| Alloc
| Dealloc (q : ptr).

Inductive verdict (St : Type) : Type :=
| Finished (s : St) (outstanding : list ptr)
| Raised (e : error)
| Crashed
| Misused.

Arguments Finished {St} s outstanding.
Arguments Raised {St} e.
Arguments Crashed {St}.
Arguments Misused {St}.

Fixpoint remove_first (q : ptr) (l : list ptr) : list ptr :=
  match l with
  | [] => []
  | x :: l' => if decide (x = q) then l' else x :: remove_first q l'
  end.

(** [run cap cs s out] plays the calls [cs] on the allocator in state
    [s] for a client holding [out].  The client respects the interface:
    it asks for a slot only while it holds fewer than [cap] pointers,
    and it gives back only a pointer that it holds; a sequence that
    does otherwise is [Misused].  [Raised] reports an exception and
    [Crashed] undefined behaviour. *)
Fixpoint run {St} `{Allocator St} (cap : nat) (cs : list call) (s : St) (out : list ptr)
  : verdict St :=
  match cs with
  | [] => Finished s out
  | Alloc :: cs' =>
      if decide (length out < cap)%nat then
        match allocate s with
        | Returned q s' => run cap cs' s' (q :: out)
        | Thrown e _ => Raised e
        | Undefined => Crashed
        end
      else Misused
  | Dealloc q :: cs' =>
      if decide (q ∈ out) then
        match deallocate q s with
        | Returned _ s' => run cap cs' s' (remove_first q out)
        | Thrown e _ => Raised e
        | Undefined => Crashed
        end
      else Misused
  end.

(** [n] calls of [allocate] in a row; the pointers in the order they
    were returned. *)
Fixpoint allocate_n {St} `{Allocator St} (n : nat) : St -> outcome (list ptr) St :=
  match n with
  | O => ret []
  | S n' => (let* q := allocate in let* qs := allocate_n n' in ret (q :: qs))%alloc
  end.

(** Every two pointers held are distinct and their slots share no byte. *)
Definition pairwise_disjoint (sz : Z) (out : list ptr) : Prop :=
  NoDup out /\ forall q r, q ∈ out -> r ∈ out -> q <> r -> disjoint_slots sz q r.

(** [n] calls of [allocate] in a row by a client that catches the
    exception and calls again: what each call gave, and the final
    state. *)
Fixpoint allocate_retry {St} `{Allocator St} (n : nat) (s : St)
  : option (list (ptr + error) * St) :=
  match n with
  | O => Some ([], s)
  | S n' =>
      match allocate s with
      | Returned q s' =>
          match allocate_retry n' s' with
          | Some (rs, s'') => Some (inl q :: rs, s'')
          | None => None
          end
      | Thrown e s' =>
          match allocate_retry n' s' with
          | Some (rs, s'') => Some (inr e :: rs, s'')
          | None => None
          end
      | Undefined => None
      end
  end.

(** The pool as a value type calls it from its [operator new], which
    is passed the size of the type: the pool is then itself an
    allocator. *)
Definition ObjectPool_Allocator {St} `{Allocator St} (sizeof_T : Z)
  : Allocator (ObjectPool.t (St := St)) :=
  {| allocate := ObjectPool.allocate sizeof_T sizeof_T;
     deallocate := ObjectPool.deallocate |}.

(** * Properties *)

(** ** Integers and slots *)

Lemma int_wrap_id z : - 2 ^ 31 <= z <= INT_MAX -> int_wrap z = z.
Proof.
  intros H. unfold int_wrap, INT_MAX in *.
  rewrite Z.mod_small by lia. lia.
Qed.

Lemma size_t_of_id z : 0 <= z <= SIZE_MAX -> size_t_of z = z.
Proof.
  intros H. unfold size_t_of, SIZE_MAX in *.
  apply Z.mod_small. lia.
Qed.

Lemma slot_inj sz base i j : 0 < sz -> slot sz base i = slot sz base j -> i = j.
Proof. unfold slot. intros Hsz H. nia. Qed.

Lemma slot_nonnull sz base i : 0 < sz -> 0 < base -> slot sz base i <> nullptr.
Proof. unfold slot, nullptr. intros. nia. Qed.

Lemma slot_disjoint sz base i j :
  0 < sz -> i <> j -> disjoint_slots sz (slot sz base i) (slot sz base j).
Proof. unfold disjoint_slots, slot. intros Hsz Hij. nia. Qed.

(** ** Call sequences in general *)

Lemma remove_first_perm q l : q ∈ l -> l ≡ₚ q :: remove_first q l.
Proof.
  induction l as [|x l IH]; intros Hin.
  - by apply elem_of_nil in Hin.
  - simpl. destruct (decide (x = q)) as [->|Hne]; [done|].
    apply elem_of_cons in Hin as [Heq|Hin]; [congruence|].
    rewrite (IH Hin) at 1. apply Permutation_swap.
Qed.

Lemma remove_first_length q l : q ∈ l -> length l = S (length (remove_first q l)).
Proof. intros Hin. by rewrite (remove_first_perm q l Hin) at 1. Qed.

Lemma remove_first_NoDup q l : NoDup l -> NoDup (remove_first q l).
Proof.
  intros Hnd. destruct (decide (q ∈ l)) as [Hin|Hnin].
  - rewrite (remove_first_perm q l Hin) in Hnd. by apply NoDup_cons in Hnd as [_ ?].
  - assert (remove_first q l = l) as ->; [|done].
    clear Hnd. induction l as [|x l IH]; [done|]. simpl.
    apply not_elem_of_cons in Hnin as [Hne Hnin].
    destruct (decide (x = q)); [congruence|]. by rewrite IH.
Qed.

Lemma remove_first_elem_of q l x :
  NoDup l -> q ∈ l -> x ∈ remove_first q l <-> x ∈ l /\ x <> q.
Proof.
  intros Hnd Hin. pose proof (remove_first_perm q l Hin) as Hp.
  rewrite Hp in Hnd. apply NoDup_cons in Hnd as [Hq _].
  rewrite Hp at 2. rewrite elem_of_cons. split.
  - intros Hx. split; [by right|]. intros ->. contradiction.
  - intros [[->|Hx] Hne]; [contradiction|done].
Qed.

Lemma allocate_n_S {St} `{Allocator St} (n : nat) (s : St) :
  allocate_n (S n) s
  = match allocate s with
    | Returned q s' =>
        match allocate_n n s' with
        | Returned qs s'' => Returned (q :: qs) s''
        | Thrown e s'' => Thrown e s''
        | Undefined => Undefined
        end
    | Thrown e s' => Thrown e s'
    | Undefined => Undefined
    end.
Proof.
  cbn [allocate_n]. unfold bind. destruct (allocate s) as [q s'| |]; [|done..].
  by destruct (allocate_n n s').
Qed.

(** An invariant of the allocator and of what its client holds, kept by
    every call that respects the interface, holds at the end of every
    sequence, and no call of the sequence throws or is undefined. *)
Lemma run_invariant {St} `{Allocator St} (cap : nat) (I : St -> list ptr -> Prop) :
  (forall s out, I s out -> (length out < cap)%nat ->
     exists q s', allocate s = Returned q s' /\ I s' (q :: out)) ->
  (forall s out q, I s out -> q ∈ out ->
     exists u s', deallocate q s = Returned u s' /\ I s' (remove_first q out)) ->
  forall cs s out, I s out ->
    match run cap cs s out with
    | Finished s' out' => I s' out'
    | Misused => True
    | Raised _ | Crashed => False
    end.
Proof.
  intros Halloc Hfree cs. induction cs as [|c cs IH]; intros s out HI; simpl; [done|].
  destruct c as [|q].
  - case_decide as Hlen; [|done].
    destruct (Halloc s out HI Hlen) as (q & s' & -> & HI'). by apply IH.
  - case_decide as Hin; [|done].
    destruct (Hfree s out q HI Hin) as (u & s' & -> & HI'). by apply IH.
Qed.

(** ** [ArrayAllocator] *)

Section ArrayAllocator_properties.
Variables (sz base : Z) (N : nat).
Hypothesis Hlay : layout_ok sz base N.

Local Abbreviation t := ArrayAllocator.t.
Local Abbreviation m_used := ArrayAllocator.m_used.
Local Abbreviation Build := ArrayAllocator.Build.
Local Abbreviation allocate_from := (ArrayAllocator.allocate_from sz base).
Local Abbreviation A := (ArrayAllocator_Allocator sz base N).

(** What the scan does: it stops at the first cleared flag, or finds
    every flag set. *)
Lemma Array_allocate_from_spec fuel i (s : t) :
  (i + fuel <= length (m_used s))%nat ->
  (exists k, (i <= k < i + fuel)%nat /\ m_used s !! k = Some false /\
     (forall j, (i <= j < k)%nat -> m_used s !! j = Some true) /\
     allocate_from fuel i s = Returned (slot sz base k) (Build (<[k := true]> (m_used s))))
  \/ ((forall j, (i <= j < i + fuel)%nat -> m_used s !! j = Some true) /\
      allocate_from fuel i s = Thrown OutOfCapacity s).
Proof.
  revert i. induction fuel as [|fuel IH]; intros i Hlen; simpl.
  - right. split; [intros j Hj; lia | done].
  - destruct (m_used s !! i) as [[|]|] eqn:Hi.
    + destruct (IH (S i)) as [(k & Hk & Hf & Hall & Heq)|[Hall Heq]]; [lia|..].
      * left. exists k. split; [lia|]. split; [done|]. split; [|done].
        intros j Hj. destruct (decide (j = i)) as [->|]; [done|apply Hall; lia].
      * right. split; [|done].
        intros j Hj. destruct (decide (j = i)) as [->|]; [done|apply Hall; lia].
    + left. exists i. split; [lia|]. split; [done|]. split; [intros; lia|done].
    + apply lookup_ge_None in Hi. lia.
Qed.

Lemma Array_allocate_first_free (s : t) k :
  length (m_used s) = N ->
  m_used s !! k = Some false ->
  (forall j, (j < k)%nat -> m_used s !! j = Some true) ->
  allocate (Allocator := A) s = Returned (slot sz base k) (Build (<[k := true]> (m_used s))).
Proof.
  intros Hlen Hk Hbefore. simpl. unfold ArrayAllocator.allocate.
  destruct (Array_allocate_from_spec N 0 s) as [(k' & Hk' & Hf & Hall & ->)|[Hall _]]; [lia|..].
  - assert (k' = k) as ->; [|done].
    destruct (Nat.lt_trichotomy k' k) as [Hlt|[->|Hgt]]; [|done|].
    + rewrite Hbefore in Hf by done. discriminate.
    + rewrite Hall in Hk by lia. discriminate.
  - apply lookup_lt_Some in Hk as Hlt. rewrite Hall in Hk by lia. discriminate.
Qed.

Lemma Array_allocate_full (s : t) :
  length (m_used s) = N ->
  (forall j, (j < N)%nat -> m_used s !! j = Some true) ->
  allocate (Allocator := A) s = Thrown OutOfCapacity s.
Proof.
  intros Hlen Hall. simpl. unfold ArrayAllocator.allocate.
  destruct (Array_allocate_from_spec N 0 s) as [(k & Hk & Hf & _ & _)|[_ ->]]; [lia| |done].
  rewrite Hall in Hf by lia. discriminate.
Qed.

(** The index [deallocate] computes for the address of slot [i]. *)
Lemma Array_index_of_slot i :
  (i < N)%nat -> Z.to_nat (size_t_of (slot sz base i - base) / sz) = i.
Proof.
  destruct Hlay as (Hsz & Hbase & HN & Hfit). intros Hi. unfold slot.
  replace (base + sz * Z.of_nat i - base) with (Z.of_nat i * sz) by lia.
  rewrite size_t_of_id by (unfold SIZE_MAX in *; nia).
  rewrite Z.div_mul by lia. lia.
Qed.

Lemma Array_deallocate_slot (s : t) i :
  length (m_used s) = N -> (i < N)%nat ->
  deallocate (Allocator := A) (slot sz base i) s = Returned tt (Build (<[i := false]> (m_used s))).
Proof.
  intros Hlen Hi. simpl. unfold ArrayAllocator.deallocate.
  rewrite Array_index_of_slot by done. rewrite decide_True by lia. done.
Qed.

(** The flags and the pointers held by the client agree: the client
    holds exactly the slots whose flag is set, each once. *)
Definition Array_inv (s : t) (out : list ptr) : Prop :=
  length (m_used s) = N /\ NoDup out /\
  forall q, q ∈ out <-> exists i, q = slot sz base i /\ m_used s !! i = Some true.

Lemma Array_inv_init : Array_inv (ArrayAllocator.init N) [].
Proof.
  split; [apply length_replicate|]. split; [constructor|].
  intros q. split; [by intros ?%elem_of_nil|].
  intros (i & _ & Hi). simpl in Hi. apply lookup_replicate in Hi as [? _]. discriminate.
Qed.

Lemma Array_inv_disjoint s out : Array_inv s out -> pairwise_disjoint sz out.
Proof.
  destruct Hlay as (Hsz & _). intros (_ & Hnd & Hout). split; [done|].
  intros q r [i [-> _]]%Hout [j [-> _]]%Hout Hne.
  apply slot_disjoint; [done|]. intros ->. done.
Qed.

Lemma Array_inv_allocate s out :
  Array_inv s out -> (length out < N)%nat ->
  exists q s', allocate (Allocator := A) s = Returned q s' /\ Array_inv s' (q :: out).
Proof.
  destruct Hlay as (Hsz & _). intros (Hlen & Hnd & Hout) Hroom.
  simpl. unfold ArrayAllocator.allocate.
  destruct (Array_allocate_from_spec N 0 s) as [(k & Hk & Hf & _ & ->)|[Hall _]]; [lia|..].
  - eexists _, _. split; [done|]. unfold Array_inv; simpl.
    split; [by rewrite length_insert|]. split.
    + constructor; [|done]. intros (i & Heq & Hi)%Hout.
      apply slot_inj in Heq as <-; [|done]. congruence.
    + intros q. rewrite elem_of_cons, Hout. split.
      * intros [->|(i & -> & Hi)].
        -- exists k. split; [done|]. apply list_lookup_insert_eq. lia.
        -- exists i. split; [done|]. rewrite list_lookup_insert_ne; [done|]. congruence.
      * intros (i & -> & Hi). destruct (decide (i = k)) as [->|Hne]; [by left|].
        right. exists i. split; [done|]. by rewrite list_lookup_insert_ne in Hi.
  - exfalso.
    assert (slot sz base <$> seq 0 N ⊆+ out) as Hsub.
    { apply NoDup_submseteq.
      - apply NoDup_fmap_2; [|apply NoDup_seq]. intros i j. by apply slot_inj.
      - intros q (i & -> & Hi)%list_elem_of_fmap. apply elem_of_seq in Hi.
        apply Hout. exists i. split; [done|]. apply Hall. lia. }
    apply submseteq_length in Hsub. rewrite length_fmap, length_seq in Hsub. lia.
Qed.

Lemma Array_inv_deallocate s out q :
  Array_inv s out -> q ∈ out ->
  exists u s', deallocate (Allocator := A) q s = Returned u s' /\
               Array_inv s' (remove_first q out).
Proof.
  destruct Hlay as (Hsz & _). intros (Hlen & Hnd & Hout) Hin.
  destruct (proj1 (Hout q) Hin) as (i & -> & Hi).
  apply lookup_lt_Some in Hi as Hlt. rewrite Hlen in Hlt.
  rewrite Array_deallocate_slot by done. eexists _, _. split; [done|].
  unfold Array_inv; simpl. split; [by rewrite length_insert|].
  split; [by apply remove_first_NoDup|].
  intros q. rewrite remove_first_elem_of, Hout by done. split.
  - intros [(j & -> & Hj) Hne]. exists j. split; [done|].
    rewrite list_lookup_insert_ne; [done|]. congruence.
  - intros (j & -> & Hj). destruct (decide (i = j)) as [->|Hne].
    + rewrite list_lookup_insert_eq in Hj by lia. discriminate.
    + rewrite list_lookup_insert_ne in Hj by done. split; [eauto|].
      intros Heq%slot_inj; [|done]. congruence.
Qed.

(** Along every call sequence that respects the interface, no call
    throws or is undefined, and the pointers held stay distinct slots of
    the backing store. *)
Lemma Array_run cs :
  match run (H := A) N cs (ArrayAllocator.init N) [] with
  | Finished s out =>
      pairwise_disjoint sz out /\
      forall q, q ∈ out -> exists i, (i < N)%nat /\ q = slot sz base i
  | Misused => True
  | Raised _ | Crashed => False
  end.
Proof.
  pose proof (run_invariant (H := A) N Array_inv) as Hrun.
  specialize (Hrun Array_inv_allocate).
  specialize (Hrun Array_inv_deallocate).
  specialize (Hrun cs _ _ Array_inv_init).
  destruct (run N cs (ArrayAllocator.init N) []) as [s out| | |]; try done.
  split; [by eapply Array_inv_disjoint|].
  destruct Hrun as (Hlen & _ & Hout). intros q (i & -> & Hi)%Hout.
  exists i. split; [|done]. apply lookup_lt_Some in Hi. lia.
Qed.

(** [k] calls of [allocate] once the first [j] flags are set. *)
Lemma Array_allocate_n_prefix k j :
  (j + k = N)%nat ->
  allocate_n (H := A) k (Build (replicate j true ++ replicate k false))
  = Returned (slot sz base <$> seq j k) (Build (replicate N true)).
Proof.
  revert j. induction k as [|k IH]; intros j Hjk.
  - simpl. rewrite app_nil_r. by replace j with N by lia.
  - rewrite allocate_n_S.
    rewrite (Array_allocate_first_free _ j).
    + cbn [m_used]. rewrite insert_app_r_alt by (rewrite length_replicate; lia).
      rewrite length_replicate, Nat.sub_diag. cbn [replicate].
      replace (replicate j true ++ <[0%nat:=true]> (false :: replicate k false))
        with (replicate (S j) true ++ replicate k false).
      * rewrite IH by lia. done.
      * rewrite replicate_S_end, <- app_assoc. reflexivity.
    + cbn [m_used]. rewrite length_app, !length_replicate. lia.
    + simpl. rewrite lookup_app_r by (rewrite length_replicate; lia).
      by rewrite length_replicate, Nat.sub_diag.
    + intros i Hi. simpl. rewrite lookup_app_l by (rewrite length_replicate; lia).
      by apply lookup_replicate.
Qed.

End ArrayAllocator_properties.

(** ** [HeapAllocator] *)

Section heap_algorithms.
Import HeapAllocator.

(** The heap algorithms move entries inside the array; its length does
    not change. *)
Lemma push_heap_loop_length fuel a holeIndex topIndex value :
  length (push_heap_loop fuel a holeIndex topIndex value) = length a.
Proof.
  revert a holeIndex. induction fuel as [|fuel IH]; intros a holeIndex; simpl.
  - apply length_insert.
  - destruct (_ && _).
    + rewrite IH. apply length_insert.
    + apply length_insert.
Qed.

Lemma adjust_heap_loop_length fuel a holeIndex secondChild len :
  length (adjust_heap_loop fuel a holeIndex secondChild len).1.1 = length a.
Proof.
  revert a holeIndex secondChild.
  induction fuel as [|fuel IH]; intros a holeIndex secondChild; simpl; [done|].
  destruct (_ <? _)%nat; [|done]. rewrite IH. apply length_insert.
Qed.

Lemma adjust_heap_length a holeIndex len value :
  length (__adjust_heap a holeIndex len value) = length a.
Proof.
  unfold __adjust_heap.
  pose proof (adjust_heap_loop_length len a holeIndex holeIndex len) as Hloop.
  destruct (adjust_heap_loop len a holeIndex holeIndex len) as [[a' hole'] sc'].
  simpl in Hloop. destruct (_ && _); unfold __push_heap;
    rewrite push_heap_loop_length; [rewrite length_insert|]; done.
Qed.

Lemma pop_heap_length a : length (pop_heap a) = length a.
Proof.
  unfold pop_heap. destruct (_ <? _)%nat; [|done].
  rewrite adjust_heap_length. apply length_insert.
Qed.

Lemma push_heap_length a : length (push_heap a) = length a.
Proof.
  unfold push_heap. destruct a; [done|]. unfold __push_heap.
  apply push_heap_loop_length.
Qed.

Lemma make_heap_loop_length parent a : length (make_heap_loop parent a) = length a.
Proof.
  revert a. induction parent as [|parent IH]; intros a; simpl.
  - apply adjust_heap_length.
  - rewrite IH. apply adjust_heap_length.
Qed.

Lemma make_heap_length a : length (make_heap a) = length a.
Proof.
  unfold make_heap. destruct (_ <? _)%nat; [done|]. apply make_heap_loop_length.
Qed.

End heap_algorithms.

Section HeapAllocator_properties.
Variables (sz base : Z) (N : nat).
Hypothesis Hlay : layout_ok sz base N.

Local Abbreviation t := HeapAllocator.t.
Local Abbreviation m_entry := HeapAllocator.m_entry.
Local Abbreviation m_available := HeapAllocator.m_available.
Local Abbreviation H := (HeapAllocator_Allocator N).

Lemma Heap_init_length : length (m_entry (HeapAllocator.init sz base N)) = N.
Proof. simpl. by rewrite make_heap_length, length_map, length_seq. Qed.

Lemma Heap_init_available : m_available (HeapAllocator.init sz base N) = Z.of_nat N.
Proof.
  destruct Hlay as (_ & _ & HN & _). simpl. apply int_wrap_id.
  unfold INT_MAX in *. lia.
Qed.

(** [allocate] with a positive counter: it returns the pointer of the
    root entry and decrements the counter, whatever the entries are. *)
Lemma Heap_allocate_counts (s : t) :
  length (m_entry s) = N -> 0 < m_available s <= Z.of_nat N ->
  exists q s', allocate (Allocator := H) s = Returned q s' /\
    length (m_entry s') = N /\ m_available s' = m_available s - 1.
Proof.
  destruct Hlay as (_ & _ & HN & _). intros Hlen Hav.
  simpl. unfold HeapAllocator.allocate.
  destruct (Z.leb_spec (m_available s) 0) as [|_]; [lia|].
  destruct (m_entry s !! 0%nat) as [e|] eqn:He.
  2:{ apply lookup_ge_None in He. lia. }
  rewrite int_wrap_id by (unfold INT_MAX in *; lia).
  rewrite pop_heap_length, decide_True by lia.
  eexists _, _. split; [done|]. simpl.
  by rewrite length_insert, pop_heap_length.
Qed.

Lemma Heap_allocate_empty (s : t) :
  m_available s <= 0 -> allocate (Allocator := H) s = Thrown OutOfCapacity s.
Proof.
  intros Hav. simpl. unfold HeapAllocator.allocate.
  by destruct (Z.leb_spec (m_available s) 0) as [_|]; [|lia].
Qed.

(** [deallocate] of a non-null pointer below capacity increments the
    counter. *)
Lemma Heap_deallocate_counts (s : t) q :
  length (m_entry s) = N -> 0 <= m_available s < Z.of_nat N -> q <> nullptr ->
  exists s', deallocate (Allocator := H) q s = Returned tt s' /\
    length (m_entry s') = N /\ m_available s' = m_available s + 1.
Proof.
  destruct Hlay as (_ & _ & HN & _). intros Hlen Hav Hq.
  simpl. unfold HeapAllocator.deallocate.
  rewrite decide_False by done.
  rewrite size_t_of_id by (unfold SIZE_MAX, INT_MAX in *; lia).
  destruct (Z.leb_spec (Z.of_nat N) (m_available s)) as [|_]; [lia|].
  rewrite decide_True by lia.
  eexists. split; [done|]. simpl.
  rewrite push_heap_length, length_insert.
  split; [done|]. apply int_wrap_id. unfold INT_MAX in *. lia.
Qed.

(** The counter is the capacity minus the number of pointers held. *)
Definition Heap_inv (s : t) (out : list ptr) : Prop :=
  length (m_entry s) = N /\ (length out <= N)%nat /\
  m_available s = Z.of_nat N - Z.of_nat (length out).

Lemma Heap_inv_init : Heap_inv (HeapAllocator.init sz base N) [].
Proof.
  split; [apply Heap_init_length|]. split; [simpl; lia|].
  rewrite Heap_init_available. simpl. lia.
Qed.

(** As long as the client never gives back the null pointer, the
    counter stays exact and no call throws or is undefined. *)
Lemma Heap_run_nonnull cs s out :
  Heap_inv s out -> Forall (fun c => c <> Dealloc nullptr) cs ->
  match run (H := H) N cs s out with
  | Finished s' out' => Heap_inv s' out'
  | Misused => True
  | Raised _ | Crashed => False
  end.
Proof.
  revert s out. induction cs as [|c cs IH]; intros s out HI Hcs; [done|].
  apply Forall_cons in Hcs as [Hc Hcs]. destruct HI as (Hlen & Hle & Hav).
  destruct c as [|q]; cbn [run].
  - case_decide as Hroom; [|done].
    destruct (Heap_allocate_counts s) as (q & s' & -> & Hlen' & Hav'); [done|lia|].
    apply IH; [|done]. split; [done|]. split; simpl; lia.
  - case_decide as Hin; [|done].
    pose proof (remove_first_length q out Hin) as Hout.
    destruct (Heap_deallocate_counts s q) as (s' & -> & Hlen' & Hav'); [done|lia|congruence|].
    apply IH; [|done]. split; [done|]. split; lia.
Qed.

(** [k] calls of [allocate] when the counter is [k]. *)
Lemma Heap_allocate_n k (s : t) :
  length (m_entry s) = N -> (k <= N)%nat -> m_available s = Z.of_nat k ->
  exists qs s', allocate_n (H := H) k s = Returned qs s' /\
    length qs = k /\ length (m_entry s') = N /\ m_available s' = 0.
Proof.
  revert s. induction k as [|k IH]; intros s Hlen Hk Hav.
  - exists [], s. done.
  - destruct (Heap_allocate_counts s) as (q & s1 & Heq & Hlen1 & Hav1); [done|lia|].
    destruct (IH s1) as (qs & s2 & Heq2 & Hqs & Hlen2 & Hav2); [done|lia|lia|].
    exists (q :: qs), s2. rewrite allocate_n_S. rewrite Heq, Heq2. simpl. auto.
Qed.

End HeapAllocator_properties.

(** ** [StackAllocator] *)

Section StackAllocator_properties.
Variables (sz base : Z) (N : nat).
Hypothesis Hlay : layout_ok sz base N.

Local Abbreviation t := StackAllocator.t.
Local Abbreviation Build := StackAllocator.Build.
Local Abbreviation m_stack := StackAllocator.m_stack.
Local Abbreviation m_allocated := StackAllocator.m_allocated.
Local Abbreviation m_available := StackAllocator.m_available.
Local Abbreviation S_ := (StackAllocator_Allocator sz base N).

(** The reuse path: with [a + 1] pointers on the stack, [allocate]
    returns the top one, whatever the bump cursor is. *)
Lemma Stack_allocate_pop stack c a q :
  (a < N)%nat -> stack !! a = Some q ->
  allocate (Allocator := S_) (Build stack c (Z.of_nat (S a)))
  = Returned q (Build stack c (Z.of_nat a)).
Proof.
  destruct Hlay as (_ & _ & HN & _). intros Ha Hq.
  simpl. unfold StackAllocator.allocate. cbn [m_stack m_allocated m_available].
  destruct (Z.leb_spec (Z.of_nat (S a)) 0) as [|_]; [lia|]. cbn [andb].
  destruct (Z.ltb_spec 0 (Z.of_nat (S a))) as [_|]; [|lia].
  replace (Z.of_nat (S a) - 1) with (Z.of_nat a) by lia.
  rewrite int_wrap_id by (unfold INT_MAX in *; lia).
  rewrite decide_True by lia. by rewrite Nat2Z.id, Hq.
Qed.

(** The bump path: with an empty stack and [c < N] slots carved,
    [allocate] carves slot [c]. *)
Lemma Stack_allocate_bump stack c :
  (c < N)%nat ->
  allocate (Allocator := S_) (Build stack (Z.of_nat c) 0)
  = Returned (slot sz base c) (Build stack (Z.of_nat (S c)) 0).
Proof.
  destruct Hlay as (_ & _ & HN & _). intros Hc.
  simpl. unfold StackAllocator.allocate. cbn [m_stack m_allocated m_available].
  rewrite size_t_of_id by (unfold SIZE_MAX, INT_MAX in *; lia).
  destruct (Z.leb_spec (Z.of_nat N) (Z.of_nat c)) as [|_]; [lia|].
  rewrite andb_false_r. cbn [Z.ltb Z.compare].
  rewrite int_wrap_id by (unfold INT_MAX in *; lia).
  unfold slot. do 2 f_equal. lia.
Qed.

Lemma Stack_allocate_exhausted stack :
  allocate (Allocator := S_) (Build stack (Z.of_nat N) 0)
  = Thrown OutOfCapacity (Build stack (Z.of_nat N) 0).
Proof.
  destruct Hlay as (_ & _ & HN & _).
  simpl. unfold StackAllocator.allocate. cbn [m_stack m_allocated m_available].
  rewrite size_t_of_id by (unfold SIZE_MAX, INT_MAX in *; lia).
  by rewrite !Z.leb_refl.
Qed.

Lemma Stack_deallocate_push stack c a q :
  (a < N)%nat -> length stack = N ->
  deallocate (Allocator := S_) q (Build stack c (Z.of_nat a))
  = Returned tt (Build (<[a := q]> stack) c (Z.of_nat (S a))).
Proof.
  destruct Hlay as (_ & _ & HN & _). intros Ha Hlen.
  simpl. unfold StackAllocator.deallocate. cbn [m_stack m_allocated m_available].
  rewrite decide_True by lia.
  rewrite int_wrap_id by (unfold INT_MAX in *; lia).
  rewrite Nat2Z.id. do 2 f_equal. lia.
Qed.

(** The pointers on the reuse stack and those held by the client are
    together the slots carved so far, each once. *)
Definition Stack_inv (s : t) (out : list ptr) : Prop :=
  exists a c : nat,
    m_available s = Z.of_nat a /\ m_allocated s = Z.of_nat c /\
    length (m_stack s) = N /\ (c <= N)%nat /\ (length out + a = c)%nat /\
    NoDup (take a (m_stack s) ++ out) /\
    forall q, q ∈ take a (m_stack s) ++ out <-> exists i, (i < c)%nat /\ q = slot sz base i.

Lemma Stack_inv_init junk : length junk = N -> Stack_inv (StackAllocator.init junk) [].
Proof.
  intros Hlen. exists 0%nat, 0%nat. simpl. split_and!; try done; try lia.
  - constructor.
  - intros q. split; [by intros ?%elem_of_nil|]. intros (i & ? & _). lia.
Qed.

Lemma Stack_inv_disjoint s out : Stack_inv s out -> pairwise_disjoint sz out.
Proof.
  destruct Hlay as (Hsz & _).
  intros (a & c & _ & _ & _ & _ & _ & Hnd & Hall).
  apply NoDup_app in Hnd as (_ & _ & Hnd). split; [done|].
  intros q r Hq Hr Hne.
  destruct (proj1 (Hall q)) as (i & _ & ->); [apply elem_of_app; by right|].
  destruct (proj1 (Hall r)) as (j & _ & ->); [apply elem_of_app; by right|].
  apply slot_disjoint; [done|]. intros ->. done.
Qed.

Lemma Stack_inv_allocate s out :
  Stack_inv s out -> (length out < N)%nat ->
  exists q s', allocate (Allocator := S_) s = Returned q s' /\ Stack_inv s' (q :: out).
Proof.
  destruct Hlay as (Hsz & _).
  intros (a & c & Hav & Hal & Hlen & HcN & Hcount & Hnd & Hall) Hroom.
  destruct s as [stack c' a'].
  cbn [StackAllocator.m_stack StackAllocator.m_allocated StackAllocator.m_available] in *.
  subst c' a'. destruct a as [|a].
  - (* bump *)
    change (Z.of_nat 0) with 0. rewrite Stack_allocate_bump by lia. eexists _, _. split; [done|].
    exists 0%nat, (S c). simpl in *. split_and!; try done; try lia.
    + constructor; [|done]. intros (i & Hi & Heq)%Hall.
      apply slot_inj in Heq; [|done]. lia.
    + intros q. rewrite elem_of_cons, Hall. split.
      * intros [->|(i & Hi & ->)]; [exists c|exists i]; split; (lia || done).
      * intros (i & Hi & ->). destruct (decide (i = c)) as [->|]; [by left|].
        right. exists i. split; [lia|done].
  - (* reuse *)
    destruct (lookup_lt_is_Some_2 stack a) as [q Hq]; [lia|].
    rewrite (Stack_allocate_pop _ _ _ q) by (done || lia).
    eexists _, _. split; [done|].
    assert (take a stack ++ q :: out ≡ₚ take (S a) stack ++ out) as Hperm.
    { rewrite (take_S_r _ _ _ Hq), <- app_assoc. done. }
    exists a, c. simpl. split_and!; try done; try lia.
    + by rewrite Hperm.
    + intros r. rewrite Hperm. apply Hall.
Qed.

Lemma Stack_inv_deallocate s out q :
  Stack_inv s out -> q ∈ out ->
  exists u s', deallocate (Allocator := S_) q s = Returned u s' /\
               Stack_inv s' (remove_first q out).
Proof.
  intros (a & c & Hav & Hal & Hlen & HcN & Hcount & Hnd & Hall) Hin.
  destruct s as [stack c' a'].
  cbn [StackAllocator.m_stack StackAllocator.m_allocated StackAllocator.m_available] in *.
  subst c' a'. pose proof (remove_first_length q out Hin) as Hout.
  rewrite Stack_deallocate_push by (done || lia).
  eexists _, _. split; [done|].
  assert (take (S a) (<[a:=q]> stack) ++ remove_first q out ≡ₚ take a stack ++ out) as Hperm.
  { rewrite (take_S_r _ _ q) by (apply list_lookup_insert_eq; lia).
    rewrite take_insert_ge by done. rewrite <- app_assoc. simpl.
    by rewrite <- (remove_first_perm q out Hin). }
  exists (S a), c. simpl. split_and!; try done; try lia.
  - by rewrite length_insert.
  - by rewrite Hperm.
  - intros r. rewrite Hperm. apply Hall.
Qed.

(** Along every call sequence that respects the interface, no call
    throws or is undefined, and the pointers held stay distinct slots of
    the backing store. *)
Lemma Stack_run junk cs :
  length junk = N ->
  match run (H := S_) N cs (StackAllocator.init junk) [] with
  | Finished s out =>
      pairwise_disjoint sz out /\
      forall q, q ∈ out -> exists i, (i < N)%nat /\ q = slot sz base i
  | Misused => True
  | Raised _ | Crashed => False
  end.
Proof.
  intros Hjunk.
  pose proof (run_invariant (H := S_) N Stack_inv) as Hrun.
  specialize (Hrun Stack_inv_allocate).
  specialize (Hrun Stack_inv_deallocate).
  specialize (Hrun cs _ _ (Stack_inv_init junk Hjunk)).
  destruct (run N cs (StackAllocator.init junk) []) as [s out| | |]; try done.
  split; [by eapply Stack_inv_disjoint|].
  destruct Hrun as (a & c & _ & _ & _ & HcN & _ & _ & Hall).
  intros q Hq. destruct (proj1 (Hall q)) as (i & Hi & ->); [apply elem_of_app; by right|].
  exists i. split; [lia|done].
Qed.

(** [k] calls of [allocate] on an empty reuse stack carve the next [k]
    slots, in ascending order. *)
Lemma Stack_allocate_n_bump stack k c :
  (c + k <= N)%nat ->
  allocate_n (H := S_) k (Build stack (Z.of_nat c) 0)
  = Returned (slot sz base <$> seq c k) (Build stack (Z.of_nat (c + k)) 0).
Proof.
  revert c. induction k as [|k IH]; intros c Hck.
  - simpl. by rewrite Nat.add_0_r.
  - rewrite allocate_n_S. rewrite Stack_allocate_bump by lia.
    rewrite IH by lia. simpl. do 3 f_equal. lia.
Qed.

End StackAllocator_properties.

(** ** [BlockAllocator] *)

Section BlockAllocator_properties.
Variables (sz ptr_size : Z) (K : nat) (block_addr : nat -> ptr).
Hypothesis Hsz : 0 < sz.

Local Abbreviation t := BlockAllocator.t.
Local Abbreviation Build := BlockAllocator.Build.
Local Abbreviation mkWorld := BlockAllocator.mkWorld.
Local Abbreviation m_head := BlockAllocator.m_head.
Local Abbreviation env := BlockAllocator.env.
Local Abbreviation malloc_log := BlockAllocator.malloc_log.
Local Abbreviation memory := BlockAllocator.memory.
Local Abbreviation cerr := BlockAllocator.cerr.
Local Abbreviation thread_chunks := BlockAllocator.thread_chunks.
Local Abbreviation chain := BlockAllocator.chain.
Local Abbreviation B := (BlockAllocator_Allocator sz ptr_size K block_addr).

(** Address of the chunk number [j] counted from [head]. *)
Definition chunk_at (head : ptr) (j : nat) : ptr := head + Z.of_nat j * sz.

(** The memory [m] holds a free list that starts at [head] and runs
    through [n] links, chunk after chunk, to a chunk whose link is null:
    [n + 1] chunks in all. *)
Definition linked (m : gmap Z ptr) (head : ptr) (n : nat) : Prop :=
  (forall j, (j < n)%nat -> m !! chunk_at head j = Some (chunk_at head (S j))) /\
  m !! chunk_at head n = Some nullptr.

Lemma thread_chunks_end n chunk m :
  (thread_chunks n sz chunk m).2 = chunk_at chunk n.
Proof.
  revert chunk m. induction n as [|n IH]; intros chunk m; simpl.
  - unfold chunk_at. lia.
  - rewrite IH. unfold chunk_at. lia.
Qed.

Lemma thread_chunks_other n chunk m x :
  (forall j, (j < n)%nat -> x <> chunk_at chunk j) ->
  (thread_chunks n sz chunk m).1 !! x = m !! x.
Proof.
  revert chunk m. induction n as [|n IH]; intros chunk m Hx; simpl; [done|].
  rewrite IH.
  - apply lookup_insert_ne. specialize (Hx 0%nat). unfold chunk_at in Hx.
    intros ->. apply Hx; lia.
  - intros j Hj. specialize (Hx (S j)). unfold chunk_at in *.
    intros ->. apply Hx; lia.
Qed.

Lemma thread_chunks_link n chunk m j :
  (j < n)%nat ->
  (thread_chunks n sz chunk m).1 !! chunk_at chunk j = Some (chunk_at chunk (S j)).
Proof.
  revert chunk m j. induction n as [|n IH]; intros chunk m j Hj; [lia|]. simpl.
  destruct j as [|j].
  - rewrite thread_chunks_other.
    + unfold chunk_at. replace (chunk + Z.of_nat 0 * sz) with chunk by lia.
      rewrite lookup_insert_eq. f_equal. lia.
    + intros j _. unfold chunk_at. nia.
  - replace (chunk_at chunk (S j)) with (chunk_at (chunk + sz) j) by (unfold chunk_at; lia).
    rewrite IH by lia. f_equal. unfold chunk_at. lia.
Qed.

(** What [allocate_block] leaves behind: one more request in the log,
    and a free list of [ChunksPerBlock + 1] chunks. *)
Lemma allocate_block_linked (w : BlockAllocator.world) :
  block_addr (length (malloc_log w)) <> nullptr ->
  exists m,
    BlockAllocator.allocate_block K block_addr sz w
    = Some (block_addr (length (malloc_log w)),
            mkWorld (malloc_log w ++ [size_t_of (sz * Z.of_nat K)]) m (cerr w)) /\
    linked m (block_addr (length (malloc_log w))) K.
Proof.
  intros Hhead. unfold BlockAllocator.allocate_block. rewrite decide_False by done.
  set (head := block_addr (length (malloc_log w))).
  pose proof (thread_chunks_end K head (memory w)) as Hend.
  pose proof (fun j => thread_chunks_link K head (memory w) j) as Hlink.
  destruct (thread_chunks K sz head (memory w)) as [m chunk]. simpl in *. subst chunk.
  eexists. split; [done|]. split.
  - intros j Hj. rewrite lookup_insert_ne; [by apply Hlink|]. unfold chunk_at. nia.
  - apply lookup_insert_eq.
Qed.

(** Following the links of such a list visits its chunks in address
    order. *)
Lemma chain_linked m head n fuel i :
  0 < head -> linked m head n -> (i <= n)%nat -> (n - i < fuel)%nat ->
  chain fuel m (chunk_at head i) = chunk_at head <$> seq i (S n - i).
Proof.
  intros Hhead [Hlink Hlast]. revert i.
  induction fuel as [|fuel IH]; intros i Hi Hfuel; [lia|].
  cbn [BlockAllocator.chain]. rewrite decide_False by (unfold chunk_at, nullptr; nia).
  destruct (decide (i = n)) as [->|Hne].
  - rewrite Hlast, Nat.sub_succ_l, Nat.sub_diag by done.
    destruct fuel; cbn [BlockAllocator.chain]; [done|]. by rewrite decide_True.
  - rewrite Hlink by lia. rewrite IH by lia.
    replace (S n - i)%nat with (S (S n - S i)) by lia. done.
Qed.

Lemma Block_allocate_pop log m err q next :
  q <> nullptr -> m !! q = Some next ->
  allocate (Allocator := B) (Build q (mkWorld log m err))
  = Returned q (Build next (mkWorld log m err)).
Proof.
  intros Hq Hnext. cbn [allocate B]. unfold BlockAllocator.allocate.
  cbn [BlockAllocator.m_head]. rewrite decide_False by done.
  unfold BlockAllocator.pop_chunk.
  cbn [BlockAllocator.m_head BlockAllocator.env BlockAllocator.memory].
  by rewrite Hnext.
Qed.

(** Popping: with the head on chunk [i] of such a list, the next
    [n + 1 - i] calls of [allocate] return the remaining chunks in
    address order, ask the system heap for nothing, and leave the list
    empty. *)
Lemma Block_allocate_n_linked log m err head n i :
  0 < head -> linked m head n -> (i <= n)%nat ->
  allocate_n (H := B) (S n - i) (Build (chunk_at head i) (mkWorld log m err))
  = Returned (chunk_at head <$> seq i (S n - i)) (Build nullptr (mkWorld log m err)).
Proof.
  intros Hhead [Hlink Hlast]. remember (n - i)%nat as d eqn:Hd.
  revert i Hd. induction d as [|d IH]; intros i Hd Hi.
  - assert (i = n) as -> by lia. rewrite Nat.sub_succ_l, Nat.sub_diag by done.
    rewrite allocate_n_S.
    rewrite (Block_allocate_pop _ _ _ _ nullptr); [done| |done].
    unfold chunk_at, nullptr. nia.
  - replace (S n - i)%nat with (S (S n - S i)) by lia.
    rewrite allocate_n_S.
    rewrite (Block_allocate_pop _ _ _ _ (chunk_at head (S i))).
    + rewrite IH by lia. done.
    + unfold chunk_at, nullptr. nia.
    + apply Hlink. lia.
Qed.

(** A call on an empty free list, for a type large enough, is a call
    on the free list of a new block. *)
Lemma Block_allocate_refill log m err :
  ptr_size <= sz -> 0 < block_addr (length log) ->
  exists m',
    linked m' (block_addr (length log)) K /\
    allocate (Allocator := B) (Build nullptr (mkWorld log m err))
    = allocate (Allocator := B)
        (Build (block_addr (length log))
           (mkWorld (log ++ [size_t_of (sz * Z.of_nat K)]) m' err)).
Proof.
  intros Hfit Hhead.
  destruct (allocate_block_linked (mkWorld log m err)) as (m' & Hblock & Hl).
  { cbn [BlockAllocator.malloc_log]. unfold nullptr. lia. }
  cbn [BlockAllocator.malloc_log BlockAllocator.cerr] in *.
  exists m'. split; [done|].
  cbn [allocate B]. unfold BlockAllocator.allocate at 1.
  cbn [BlockAllocator.m_head BlockAllocator.env]. rewrite decide_True by done.
  destruct (Z.ltb_spec sz ptr_size) as [|_]; [lia|].
  rewrite Hblock. unfold BlockAllocator.allocate.
  cbn [BlockAllocator.m_head]. rewrite decide_False; [done|]. unfold nullptr. lia.
Qed.

(** [ChunksPerBlock + 1] calls on a fresh allocator: one request to the
    system heap, and the chunks of the free list in address order, the
    last of them at the address where the block ends. *)
Lemma Block_allocate_n_fresh :
  ptr_size <= sz -> 0 < block_addr 0 ->
  exists m,
    allocate_n (H := B) (S K) BlockAllocator.init
    = Returned (chunk_at (block_addr 0) <$> seq 0 (S K))
        (Build nullptr (mkWorld [size_t_of (sz * Z.of_nat K)] m [])).
Proof.
  intros Hfit Hhead.
  destruct (Block_allocate_refill [] ∅ [] Hfit Hhead) as (m & Hl & Heq).
  exists m. unfold BlockAllocator.init, BlockAllocator.empty_world.
  rewrite allocate_n_S. rewrite Heq.
  pose proof (Block_allocate_n_linked ([] ++ [size_t_of (sz * Z.of_nat K)]) m []
                (block_addr 0) K 0 Hhead Hl (Nat.le_0_l K)) as Hn.
  rewrite Nat.sub_0_r in Hn. rewrite allocate_n_S in Hn.
  replace (chunk_at (block_addr 0) 0) with (block_addr 0) in Hn
    by (unfold chunk_at; lia).
  exact Hn.
Qed.

End BlockAllocator_properties.

(** * The claims of the specification *)

(** A layout used to run the operations on numbers: 8-byte objects in a
    backing store at address 4096. *)
Lemma layout_example (N : nat) : (N <= 1000)%nat -> layout_ok 8 4096 N.
Proof. intros HN. unfold layout_ok, INT_MAX, SIZE_MAX. lia. Qed.

(** C8. [ArrayAllocator::allocate] is a first-fit scan from the left:
    it sets the first cleared flag and returns the address of that slot,
    and throws [OutOfCapacity] when every flag is set.  With [N = 3]:
    three calls return S0, S1, S2 in this order, a fourth throws, and
    after [deallocate(S1)] the next call returns S1 again. *)
Theorem Array_first_fit sz base N (s : ArrayAllocator.t) :
  layout_ok sz base N ->
  length (ArrayAllocator.m_used s) = N ->
  (forall k, ArrayAllocator.m_used s !! k = Some false ->
             (forall j, (j < k)%nat -> ArrayAllocator.m_used s !! j = Some true) ->
     ArrayAllocator.allocate sz base N s
     = Returned (slot sz base k)
         (ArrayAllocator.Build (<[k := true]> (ArrayAllocator.m_used s)))) /\
  ((forall j, (j < N)%nat -> ArrayAllocator.m_used s !! j = Some true) ->
     ArrayAllocator.allocate sz base N s = Thrown OutOfCapacity s) /\
  (N = 3%nat ->
   exists s1 s2 s3 s4 s5,
     ArrayAllocator.allocate sz base 3 (ArrayAllocator.init 3) = Returned (slot sz base 0) s1 /\
     ArrayAllocator.allocate sz base 3 s1 = Returned (slot sz base 1) s2 /\
     ArrayAllocator.allocate sz base 3 s2 = Returned (slot sz base 2) s3 /\
     ArrayAllocator.allocate sz base 3 s3 = Thrown OutOfCapacity s3 /\
     ArrayAllocator.deallocate sz base (slot sz base 1) s3 = Returned tt s4 /\
     ArrayAllocator.allocate sz base 3 s4 = Returned (slot sz base 1) s5).
Proof.
  intros Hlay Hlen. split; [|split].
  - intros k Hk Hbefore. by apply (Array_allocate_first_free sz base N).
  - intros Hall. by apply (Array_allocate_full sz base N).
  - intros ->.
    exists (ArrayAllocator.Build [true; false; false]),
           (ArrayAllocator.Build [true; true; false]),
           (ArrayAllocator.Build [true; true; true]),
           (ArrayAllocator.Build [true; false; true]),
           (ArrayAllocator.Build [true; true; true]).
    split; [reflexivity|]. split; [reflexivity|]. split; [reflexivity|].
    split; [reflexivity|]. split; [|reflexivity].
    apply (Array_deallocate_slot sz base 3 Hlay (ArrayAllocator.Build [true; true; true]) 1);
      [reflexivity|lia].
Qed.

Lemma Array_first_fit_witness :
  layout_ok 8 4096 3 /\
  length (ArrayAllocator.m_used (ArrayAllocator.Build [true; false; true])) = 3%nat /\
  ArrayAllocator.allocate 8 4096 3 (ArrayAllocator.Build [true; false; true])
  = Returned 4104 (ArrayAllocator.Build [true; true; true]) /\
  exists s1 s2 s3 s4 s5,
    ArrayAllocator.allocate 8 4096 3 (ArrayAllocator.init 3) = Returned 4096 s1 /\
    ArrayAllocator.allocate 8 4096 3 s1 = Returned 4104 s2 /\
    ArrayAllocator.allocate 8 4096 3 s2 = Returned 4112 s3 /\
    ArrayAllocator.allocate 8 4096 3 s3 = Thrown OutOfCapacity s3 /\
    ArrayAllocator.deallocate 8 4096 4104 s3 = Returned tt s4 /\
    ArrayAllocator.allocate 8 4096 3 s4 = Returned 4104 s5.
Proof.
  assert (layout_ok 8 4096 3) as Hlay by (apply layout_example; lia).
  split; [exact Hlay|]. split; [reflexivity|].
  pose proof (Array_first_fit 8 4096 3 (ArrayAllocator.Build [true; false; true])
                Hlay eq_refl) as (Hfirst & _ & Hscenario).
  split.
  - apply (Hfirst 1%nat eq_refl). intros [|j] Hj; [reflexivity|lia].
  - exact (Hscenario eq_refl).
Defined.


(** C6. [StackAllocator] reuses freed slots most recently freed first:
    after [deallocate(X)] then [deallocate(Y)], on any reuse stack with
    room for both, the next two calls of [allocate] return [Y] and then
    [X].  A call with a non-empty reuse stack pops it and leaves the
    bump cursor alone, whatever the cursor is; a call with an empty
    reuse stack carves the slot under the cursor and moves the cursor
    one slot up, so that carved slots come in ascending address order. *)
Theorem Stack_reuse_order sz base N stack c (a : nat) X Y :
  layout_ok sz base N -> length stack = N -> (a + 2 <= N)%nat ->
  (exists s1 s2 s3 s4,
     StackAllocator.deallocate X (StackAllocator.Build stack c (Z.of_nat a)) = Returned tt s1 /\
     StackAllocator.deallocate Y s1 = Returned tt s2 /\
     StackAllocator.allocate sz base N s2 = Returned Y s3 /\
     StackAllocator.allocate sz base N s3 = Returned X s4 /\
     StackAllocator.m_allocated s4 = c /\
     StackAllocator.m_available s4 = Z.of_nat a) /\
  (forall stack' c' (a' : nat) q, (a' < N)%nat -> stack' !! a' = Some q ->
     StackAllocator.allocate sz base N (StackAllocator.Build stack' c' (Z.of_nat (S a')))
     = Returned q (StackAllocator.Build stack' c' (Z.of_nat a'))) /\
  (forall stack' (c' : nat), (c' < N)%nat ->
     StackAllocator.allocate sz base N (StackAllocator.Build stack' (Z.of_nat c') 0)
     = Returned (slot sz base c') (StackAllocator.Build stack' (Z.of_nat (S c')) 0) /\
     slot sz base c' < slot sz base (S c')) /\
  (forall k, (k <= N)%nat ->
     allocate_n (H := StackAllocator_Allocator sz base N) k (StackAllocator.init stack)
     = Returned (slot sz base <$> seq 0 k) (StackAllocator.Build stack (Z.of_nat k) 0)).
Proof.
  intros Hlay Hlen Ha. split; [|split; [|split]].
  - exists (StackAllocator.Build (<[a := X]> stack) c (Z.of_nat (S a))),
           (StackAllocator.Build (<[S a := Y]> (<[a := X]> stack)) c (Z.of_nat (S (S a)))),
           (StackAllocator.Build (<[S a := Y]> (<[a := X]> stack)) c (Z.of_nat (S a))),
           (StackAllocator.Build (<[S a := Y]> (<[a := X]> stack)) c (Z.of_nat a)).
    split; [apply (Stack_deallocate_push sz base N Hlay); [lia|done]|].
    split; [apply (Stack_deallocate_push sz base N Hlay); [lia|by rewrite length_insert]|].
    split.
    { apply (Stack_allocate_pop sz base N Hlay); [lia|].
      apply list_lookup_insert_eq. rewrite length_insert. lia. }
    split; [|done].
    apply (Stack_allocate_pop sz base N Hlay); [lia|].
    rewrite list_lookup_insert_ne by lia. apply list_lookup_insert_eq. lia.
  - intros stack' c' a' q Ha' Hq. by apply (Stack_allocate_pop sz base N Hlay).
  - intros stack' c' Hc'. split; [by apply (Stack_allocate_bump sz base N Hlay)|].
    destruct Hlay as (Hsz & _). unfold slot. lia.
  - intros k Hk. apply (Stack_allocate_n_bump sz base N Hlay stack k 0). lia.
Qed.

Lemma Stack_reuse_order_witness :
  layout_ok 8 4096 2 /\ length [4096; 4104] = 2%nat /\ (0 + 2 <= 2)%nat /\
  exists s1 s2 s3 s4,
    StackAllocator.deallocate 4096 (StackAllocator.Build [4096; 4104] 2 (Z.of_nat 0))
    = Returned tt s1 /\
    StackAllocator.deallocate 4104 s1 = Returned tt s2 /\
    StackAllocator.allocate 8 4096 2 s2 = Returned 4104 s3 /\
    StackAllocator.allocate 8 4096 2 s3 = Returned 4096 s4 /\
    StackAllocator.m_allocated s4 = 2 /\
    StackAllocator.m_available s4 = Z.of_nat 0.
Proof.
  split; [apply layout_example; lia|]. split; [reflexivity|]. split; [lia|].
  refine (proj1 (Stack_reuse_order 8 4096 2 [4096; 4104] 2 0 4096 4104
                   (layout_example 2 _) eq_refl _)); lia.
Defined.

(** C10. [HeapAllocator::deallocate] returns at once, leaving the entry
    array and the counter as they were, when it is given the null
    pointer or when the counter already equals [N]. *)
Theorem Heap_deallocate_guard (N : nat) (s : HeapAllocator.t) (q : ptr) :
  Z.of_nat N <= INT_MAX ->
  q = nullptr \/ HeapAllocator.m_available s = Z.of_nat N ->
  HeapAllocator.deallocate N q s = Returned tt s.
Proof.
  intros HN Hguard. unfold HeapAllocator.deallocate.
  destruct (decide (q = nullptr)) as [|Hq]; [done|].
  destruct Hguard as [|Hav]; [done|]. rewrite Hav.
  rewrite size_t_of_id by (unfold SIZE_MAX, INT_MAX in *; lia).
  by rewrite Z.leb_refl.
Qed.

Lemma Heap_deallocate_guard_witness :
  Z.of_nat 3 <= INT_MAX /\
  HeapAllocator.deallocate 3 4104 (HeapAllocator.init 8 4096 3)
  = Returned tt (HeapAllocator.init 8 4096 3).
Proof.
  assert (Z.of_nat 3 <= INT_MAX) as HN by (unfold INT_MAX; lia).
  split; [exact HN|].
  apply (Heap_deallocate_guard 3 (HeapAllocator.init 8 4096 3) 4104 HN).
  right. reflexivity.
Defined.



(** C1. [HeapAllocator<T, 5>], five calls of [allocate] on a fresh
    instance: the fifth call returns the address of slot 0, which the
    second call returned and the client still holds, and the address of
    slot 3 is never returned.  The root entry read by the fifth call is
    marked [FREE] although its slot is in use. *)
Theorem Heap_allocate_returns_held_slot sz base :
  exists s4 s5,
    allocate_n (H := HeapAllocator_Allocator 5) 4 (HeapAllocator.init sz base 5)
    = Returned [slot sz base 2; slot sz base 0; slot sz base 1; slot sz base 4] s4 /\
    HeapAllocator.m_entry s4 !! 0%nat = Some (HeapAllocator.mkEntry HeapAllocator.FREE (slot sz base 0)) /\
    HeapAllocator.m_available s4 = 1 /\
    HeapAllocator.allocate s4 = Returned (slot sz base 0) s5.
Proof.
  eexists _, _. split; [vm_compute; reflexivity|].
  split; [reflexivity|]. split; [reflexivity|]. vm_compute; reflexivity.
Qed.

(** C2. [HeapAllocator<T, 5>], five calls of [allocate] on a fresh
    instance, eight-byte slots at address 4096: the client holds the
    address 4096 twice. *)
Theorem Heap_held_pointers_not_distinct :
  exists s,
    run (H := HeapAllocator_Allocator 5) 5 [Alloc; Alloc; Alloc; Alloc; Alloc]
      (HeapAllocator.init 8 4096 5) []
    = Finished s [4096; 4128; 4104; 4096; 4112] /\
    ~ pairwise_disjoint 8 [4096; 4128; 4104; 4096; 4112].
Proof.
  eexists. split; [vm_compute; reflexivity|].
  intros [Hnd _]. apply NoDup_cons in Hnd as [Hnotin _].
  apply Hnotin. set_solver.
Qed.

(** A call sequence for [HeapAllocator<T, 20>] with eight-byte slots at
    address 4096.  Every [Dealloc] gives back the pointer that the
    client received last among those it holds. *)
Definition Heap_script : list call :=
  replicate 16 Alloc ++
  [Dealloc 4112; Alloc; Alloc; Alloc;
   Dealloc 4176; Dealloc 4144; Dealloc 4192; Dealloc 4144;
   Dealloc 4168; Dealloc 4096; Dealloc 4112; Dealloc 4144;
   Alloc; Alloc; Alloc; Alloc; Alloc; Alloc;
   Dealloc 4176; Alloc; Dealloc 4144; Dealloc 4240; Alloc; Alloc].

(** C7. [HeapAllocator<T, 20>]: the last call of [Heap_script] returns
    the null pointer; the client gives it back, which [deallocate]
    ignores, and asks for four more slots; it then holds 19 pointers,
    one fewer than the capacity, and the next call of [allocate] throws
    [OutOfCapacity]. *)
Theorem Heap_raises_below_capacity :
  exists s1 out1 s2 out2,
    run (H := HeapAllocator_Allocator 20) 20 Heap_script (HeapAllocator.init 8 4096 20) []
    = Finished s1 (nullptr :: out1) /\
    run (H := HeapAllocator_Allocator 20) 20
      (Heap_script ++ [Dealloc nullptr; Alloc; Alloc; Alloc; Alloc])
      (HeapAllocator.init 8 4096 20) []
    = Finished s2 out2 /\
    length out2 = 19%nat /\
    run (H := HeapAllocator_Allocator 20) 20
      (Heap_script ++ [Dealloc nullptr; Alloc; Alloc; Alloc; Alloc; Alloc])
      (HeapAllocator.init 8 4096 20) []
    = Raised OutOfCapacity.
Proof.
  eexists _, _, _, _. split; [vm_compute; reflexivity|].
  split; [vm_compute; reflexivity|]. split; [reflexivity|].
  vm_compute; reflexivity.
Qed.

(** The system heap of the example: the request number [i] is served
    at address [4096 + 64 * i]. *)
Definition example_block_addr (i : nat) : ptr := 4096 + 64 * Z.of_nat i.

(** C4. [BlockAllocator<T, 4>] with eight-byte objects and pointers.
    The block requested is 32 bytes long, and the free list threaded
    through it has five chunks, not four: the fifth starts at the byte
    that follows the block.  Five calls of [allocate] on a fresh
    allocator are served from this one list, with one request to the
    system heap, not two. *)
Theorem Block_free_list_one_chunk_too_long :
  exists w s,
    BlockAllocator.allocate_block 4 example_block_addr 8 BlockAllocator.empty_world
    = Some (4096, w) /\
    BlockAllocator.malloc_log w = [32] /\
    BlockAllocator.chain 6 (BlockAllocator.memory w) 4096 = [4096; 4104; 4112; 4120; 4128] /\
    ~ BlockAllocator.in_block 8 4096 32 4128 /\
    allocate_n (H := BlockAllocator_Allocator 8 8 4 example_block_addr) 5 BlockAllocator.init
    = Returned [4096; 4104; 4112; 4120; 4128] s /\
    BlockAllocator.malloc_log (BlockAllocator.env s) = [32].
Proof.
  assert (0 < 8) as Hsz by lia.
  destruct (allocate_block_linked 8 4 example_block_addr Hsz BlockAllocator.empty_world)
    as (m & Hblock & Hlinked); [done|].
  destruct (Block_allocate_n_fresh 8 8 4 example_block_addr Hsz) as (m' & Hn); [lia|done|].
  eexists _, _. split; [exact Hblock|]. split; [reflexivity|].
  split.
  { apply (chain_linked 8 Hsz m 4096 4 6 0); [lia|exact Hlinked|lia|lia]. }
  split; [unfold BlockAllocator.in_block; lia|].
  split; [exact Hn|reflexivity].
Qed.

(** The size check of [BlockAllocator::allocate] is made at the first
    use only: however often a client calls [allocate] on a fresh
    allocator, the diagnostic of the check was written once. *)
Definition size_checked_once (sz ptr_size : Z) (K : nat) (block_addr : nat -> ptr) : Prop :=
  forall n rs s,
    allocate_retry (H := BlockAllocator_Allocator sz ptr_size K block_addr) (S n)
      BlockAllocator.init = Some (rs, s) ->
    length (BlockAllocator.cerr (BlockAllocator.env s)) = 1%nat.

(** C9, as stated, fails: with four-byte objects and eight-byte
    pointers the second call of [allocate] makes the size check again. *)
Lemma Block_size_check_repeated : ~ size_checked_once 4 8 4 example_block_addr.
Proof.
  intros Honce.
  specialize (Honce 1%nat
    [inr ConfigurationError; inr ConfigurationError]
    (BlockAllocator.Build nullptr
       (BlockAllocator.mkWorld [] ∅
          [BlockAllocator.size_message; BlockAllocator.size_message]))
    eq_refl).
  discriminate Honce.
Qed.

(** Calls on an empty free list for a type smaller than a pointer:
    each one writes the diagnostic and throws. *)
Lemma Block_retry_undersized sz ptr_size K block_addr (n d : nat) :
  sz < ptr_size ->
  allocate_retry (H := BlockAllocator_Allocator sz ptr_size K block_addr) n
    (BlockAllocator.Build nullptr
       (BlockAllocator.mkWorld [] ∅ (replicate d BlockAllocator.size_message)))
  = Some (replicate n (inr ConfigurationError),
          BlockAllocator.Build nullptr
            (BlockAllocator.mkWorld [] ∅ (replicate (d + n) BlockAllocator.size_message))).
Proof.
  intros Hsmall. revert d. induction n as [|n IH]; intros d.
  - simpl. by rewrite Nat.add_0_r.
  - cbn [allocate_retry allocate BlockAllocator_Allocator].
    unfold BlockAllocator.allocate at 1.
    cbn [BlockAllocator.m_head BlockAllocator.env BlockAllocator.malloc_log
         BlockAllocator.memory BlockAllocator.cerr].
    rewrite decide_True by done.
    destruct (Z.ltb_spec sz ptr_size) as [_|]; [|lia].
    rewrite <- replicate_S_end, IH.
    replace (S d + n)%nat with (d + S n)%nat by lia. done.
Qed.

(** C9, amended.  For a type smaller than a pointer, every call of
    [allocate] on a fresh allocator, the first and each later one, makes
    the size check, throws [ConfigurationError] and requests no block;
    the check belongs to the refill of an empty free list, and a call
    that finds the free list non-empty does not make it. *)
Theorem Block_size_check_at_every_refill sz ptr_size K block_addr (n : nat) :
  sz < ptr_size ->
  allocate_retry (H := BlockAllocator_Allocator sz ptr_size K block_addr) n BlockAllocator.init
  = Some (replicate n (inr ConfigurationError),
          BlockAllocator.Build nullptr
            (BlockAllocator.mkWorld [] ∅ (replicate n BlockAllocator.size_message))) /\
  (forall s, BlockAllocator.m_head s <> nullptr ->
     BlockAllocator.allocate sz ptr_size K block_addr s = BlockAllocator.pop_chunk s).
Proof.
  intros Hsmall. split.
  - apply (Block_retry_undersized sz ptr_size K block_addr n 0 Hsmall).
  - intros s Hs. unfold BlockAllocator.allocate. by rewrite decide_False.
Qed.

Lemma Block_size_check_at_every_refill_witness :
  4 < 8 /\
  allocate_retry (H := BlockAllocator_Allocator 4 8 4 example_block_addr) 3 BlockAllocator.init
  = Some ([inr ConfigurationError; inr ConfigurationError; inr ConfigurationError],
          BlockAllocator.Build nullptr
            (BlockAllocator.mkWorld [] ∅
               [BlockAllocator.size_message; BlockAllocator.size_message;
                BlockAllocator.size_message])).
Proof.
  assert (4 < 8) as Hsmall by lia. split; [exact Hsmall|].
  exact (proj1 (Block_size_check_at_every_refill 4 8 4 example_block_addr 3 Hsmall)).
Defined.

(** * Further properties of the code *)

(** ** [ArrayAllocator] *)

(** X1. [ArrayAllocator]: on every call sequence in which the client
    asks for a slot only while it holds fewer than [N] pointers and
    gives back only pointers it holds, no call throws or is undefined,
    and the pointers held are exactly the slots whose flag is set, each
    once, so that no two of them share a byte. *)
Theorem Array_call_sequences_safe sz base N cs :
  layout_ok sz base N ->
  match run (H := ArrayAllocator_Allocator sz base N) N cs (ArrayAllocator.init N) [] with
  | Finished s out =>
      pairwise_disjoint sz out /\
      forall q, q ∈ out <->
                exists i, q = slot sz base i /\ ArrayAllocator.m_used s !! i = Some true
  | Misused => True
  | Raised _ | Crashed => False
  end.
Proof.
  intros Hlay.
  pose proof (run_invariant (H := ArrayAllocator_Allocator sz base N) N
                (Array_inv sz base N)
                (Array_inv_allocate sz base N Hlay)
                (Array_inv_deallocate sz base N Hlay)
                cs _ _ (Array_inv_init sz base N)) as Hrun.
  destruct (run N cs (ArrayAllocator.init N) []) as [s out| | |]; try done.
  split; [by eapply Array_inv_disjoint|]. by destruct Hrun as (_ & _ & Hout).
Qed.

Lemma Array_call_sequences_safe_witness :
  layout_ok 8 4096 3 /\
  match run (H := ArrayAllocator_Allocator 8 4096 3) 3
          [Alloc; Alloc; Dealloc 4096; Alloc; Alloc] (ArrayAllocator.init 3) [] with
  | Finished s out =>
      pairwise_disjoint 8 out /\
      forall q, q ∈ out <->
                exists i, q = slot 8 4096 i /\ ArrayAllocator.m_used s !! i = Some true
  | Misused => True
  | Raised _ | Crashed => False
  end.
Proof.
  assert (layout_ok 8 4096 3) as Hlay by (apply layout_example; lia).
  split; [exact Hlay|].
  exact (Array_call_sequences_safe 8 4096 3 [Alloc; Alloc; Dealloc 4096; Alloc; Alloc] Hlay).
Defined.

(** X2. [ArrayAllocator]: giving back the pointer that [allocate] has
    just returned puts the allocator back in the state it had before
    the call. *)
Theorem Array_allocate_deallocate_round_trip sz base N (s s' : ArrayAllocator.t) q :
  layout_ok sz base N ->
  length (ArrayAllocator.m_used s) = N ->
  ArrayAllocator.allocate sz base N s = Returned q s' ->
  ArrayAllocator.deallocate sz base q s' = Returned tt s.
Proof.
  intros Hlay Hlen Halloc. unfold ArrayAllocator.allocate in Halloc.
  destruct (Array_allocate_from_spec sz base N 0 s) as [(k & Hk & Hf & _ & Heq)|[_ Heq]];
    [lia|..]; rewrite Heq in Halloc; [|discriminate].
  injection Halloc as <- <-.
  etrans; [apply (Array_deallocate_slot sz base N Hlay _ k); [|lia]|].
  { cbn [ArrayAllocator.m_used]. by rewrite length_insert. }
  cbn [ArrayAllocator.m_used]. rewrite list_insert_insert_eq, list_insert_id by done.
  by destruct s.
Qed.

Lemma Array_allocate_deallocate_round_trip_witness :
  layout_ok 8 4096 3 /\
  ArrayAllocator.deallocate 8 4096 4104 (ArrayAllocator.Build [true; true; false])
  = Returned tt (ArrayAllocator.Build [true; false; false]).
Proof.
  assert (layout_ok 8 4096 3) as Hlay by (apply layout_example; lia).
  split; [exact Hlay|].
  exact (Array_allocate_deallocate_round_trip 8 4096 3
           (ArrayAllocator.Build [true; false; false])
           (ArrayAllocator.Build [true; true; false]) 4104 Hlay eq_refl eq_refl).
Defined.

(** X3. [ArrayAllocator::deallocate] makes no check on its argument.
    For an address anywhere inside the backing store, aligned on a slot
    or not, it clears the flag of the slot that contains the address;
    for an address outside the backing store the index it computes is
    outside [m_used], and the store to it is undefined. *)
Theorem Array_deallocate_bounds sz base N (s : ArrayAllocator.t) (q : ptr) :
  layout_ok sz base N ->
  length (ArrayAllocator.m_used s) = N ->
  0 <= q <= SIZE_MAX ->
  (base <= q < base + sz * Z.of_nat N ->
   exists i, (i < N)%nat /\ slot sz base i <= q < slot sz base i + sz /\
     ArrayAllocator.deallocate sz base q s
     = Returned tt (ArrayAllocator.Build (<[i := false]> (ArrayAllocator.m_used s)))) /\
  (q < base \/ base + sz * Z.of_nat N <= q ->
   ArrayAllocator.deallocate sz base q s = Undefined).
Proof.
  intros (Hsz & Hbase & HN & Hfit) Hlen Hq. unfold ArrayAllocator.deallocate. split.
  - intros Hin. rewrite size_t_of_id by (unfold SIZE_MAX in *; lia).
    assert ((q - base) / sz < Z.of_nat N) as Hlt.
    { apply Z.div_lt_upper_bound; lia. }
    assert (0 <= (q - base) / sz) as Hge by (apply Z.div_pos; lia).
    exists (Z.to_nat ((q - base) / sz)).
    split; [lia|]. split.
    + unfold slot. rewrite Z2Nat.id by done.
      pose proof (Z.mul_div_le (q - base) sz Hsz).
      pose proof (Z.mul_succ_div_gt (q - base) sz Hsz). lia.
    + rewrite decide_True by lia. done.
  - intros Hout. rewrite decide_False; [done|].
    assert (Z.of_nat N <= size_t_of (q - base) / sz); [|lia].
    apply Z.div_le_lower_bound; [done|]. unfold size_t_of.
    destruct Hout as [Hlow|Hhigh].
    + replace (q - base) with (q - base + 2 ^ 64 + (-1) * 2 ^ 64) by lia.
      rewrite Z.mod_add by lia.
      rewrite Z.mod_small by (unfold SIZE_MAX in *; lia).
      unfold SIZE_MAX in *. lia.
    + rewrite Z.mod_small by (unfold SIZE_MAX in *; lia). lia.
Qed.

Lemma Array_deallocate_bounds_witness :
  layout_ok 8 4096 3 /\
  (exists i, (i < 3)%nat /\ slot 8 4096 i <= 4109 < slot 8 4096 i + 8 /\
     ArrayAllocator.deallocate 8 4096 4109 (ArrayAllocator.Build [true; true; true])
     = Returned tt (ArrayAllocator.Build (<[i := false]> [true; true; true]))) /\
  ArrayAllocator.deallocate 8 4096 4120 (ArrayAllocator.Build [true; true; true]) = Undefined.
Proof.
  assert (layout_ok 8 4096 3) as Hlay by (apply layout_example; lia).
  split; [exact Hlay|].
  assert (0 <= 4109 <= SIZE_MAX) as H1 by (unfold SIZE_MAX; lia).
  assert (0 <= 4120 <= SIZE_MAX) as H2 by (unfold SIZE_MAX; lia).
  split.
  - apply (Array_deallocate_bounds 8 4096 3 (ArrayAllocator.Build [true; true; true]) 4109
             Hlay eq_refl H1). lia.
  - apply (Array_deallocate_bounds 8 4096 3 (ArrayAllocator.Build [true; true; true]) 4120
             Hlay eq_refl H2). lia.
Defined.

(** ** [StackAllocator] *)

(** X4. [StackAllocator]: on every call sequence in which the client
    asks for a slot only while it holds fewer than [N] pointers and
    gives back only pointers it holds, no call throws or is undefined;
    the pointers held are distinct slots of the backing store, no two
    sharing a byte, and their number is the number of slots carved
    minus the number of pointers on the reuse stack, with at most [N]
    slots carved. *)
Theorem Stack_call_sequences_safe sz base N junk cs :
  layout_ok sz base N -> length junk = N ->
  match run (H := StackAllocator_Allocator sz base N) N cs (StackAllocator.init junk) [] with
  | Finished s out =>
      pairwise_disjoint sz out /\
      (forall q, q ∈ out -> exists i, (i < N)%nat /\ q = slot sz base i) /\
      0 <= StackAllocator.m_available s /\
      StackAllocator.m_allocated s <= Z.of_nat N /\
      Z.of_nat (length out) = StackAllocator.m_allocated s - StackAllocator.m_available s
  | Misused => True
  | Raised _ | Crashed => False
  end.
Proof.
  intros Hlay Hjunk.
  pose proof (run_invariant (H := StackAllocator_Allocator sz base N) N
                (Stack_inv sz base N)
                (Stack_inv_allocate sz base N Hlay)
                (Stack_inv_deallocate sz base N Hlay)
                cs _ _ (Stack_inv_init sz base N junk Hjunk)) as Hrun.
  destruct (run N cs (StackAllocator.init junk) []) as [s out| | |]; try done.
  split; [by eapply Stack_inv_disjoint|].
  destruct Hrun as (a & c & Hav & Hal & _ & HcN & Hcount & _ & Hall).
  split; [|lia].
  intros q Hq. destruct (proj1 (Hall q)) as (i & Hi & ->); [apply elem_of_app; by right|].
  exists i. split; [lia|done].
Qed.

Lemma Stack_call_sequences_safe_witness :
  layout_ok 8 4096 3 /\ length [0; 0; 0] = 3%nat /\
  match run (H := StackAllocator_Allocator 8 4096 3) 3
          [Alloc; Alloc; Dealloc 4096; Alloc; Alloc] (StackAllocator.init [0; 0; 0]) [] with
  | Finished s out =>
      pairwise_disjoint 8 out /\
      (forall q, q ∈ out -> exists i, (i < 3)%nat /\ q = slot 8 4096 i) /\
      0 <= StackAllocator.m_available s /\
      StackAllocator.m_allocated s <= Z.of_nat 3 /\
      Z.of_nat (length out) = StackAllocator.m_allocated s - StackAllocator.m_available s
  | Misused => True
  | Raised _ | Crashed => False
  end.
Proof.
  assert (layout_ok 8 4096 3) as Hlay by (apply layout_example; lia).
  split; [exact Hlay|]. split; [reflexivity|].
  exact (Stack_call_sequences_safe 8 4096 3 [0; 0; 0]
           [Alloc; Alloc; Dealloc 4096; Alloc; Alloc] Hlay eq_refl).
Defined.

(** ** Failure of [allocate] *)

Lemma Array_allocate_from_thrown sz base fuel i (s s' : ArrayAllocator.t) e :
  ArrayAllocator.allocate_from sz base fuel i s = Thrown e s' ->
  e = OutOfCapacity /\ s' = s.
Proof.
  revert i. induction fuel as [|fuel IH]; intros i; simpl.
  - by intros [= <- <-].
  - destruct (ArrayAllocator.m_used s !! i) as [[|]|]; [apply IH|done..].
Qed.

(** X5. In the three fixed-capacity strategies a call of [allocate]
    that throws has changed nothing: the exception is the one raised
    for exhaustion, and the allocator is in the state it had before the
    call, so the client may give a slot back and call again. *)
Theorem allocate_failure_changes_nothing sz base N :
  (forall (s s' : ArrayAllocator.t) e,
     ArrayAllocator.allocate sz base N s = Thrown e s' -> e = OutOfCapacity /\ s' = s) /\
  (forall (s s' : HeapAllocator.t) e,
     HeapAllocator.allocate s = Thrown e s' -> e = OutOfCapacity /\ s' = s) /\
  (forall (s s' : StackAllocator.t) e,
     StackAllocator.allocate sz base N s = Thrown e s' -> e = OutOfCapacity /\ s' = s).
Proof.
  split; [|split]; intros s s' e.
  - apply Array_allocate_from_thrown.
  - unfold HeapAllocator.allocate.
    destruct (_ <=? 0); [by intros [= <- <-]|].
    destruct (_ !! _); [|done]. by case_decide.
  - unfold StackAllocator.allocate.
    destruct (_ && _); [by intros [= <- <-]|].
    destruct (0 <? _); [|done]. case_decide; [|done]. by destruct (_ !! _).
Qed.

Lemma allocate_failure_changes_nothing_witness :
  ArrayAllocator.allocate 8 4096 2 (ArrayAllocator.Build [true; true])
  = Thrown OutOfCapacity (ArrayAllocator.Build [true; true]) /\
  OutOfCapacity = OutOfCapacity /\
  ArrayAllocator.Build [true; true] = ArrayAllocator.Build [true; true].
Proof.
  assert (ArrayAllocator.allocate 8 4096 2 (ArrayAllocator.Build [true; true])
          = Thrown OutOfCapacity (ArrayAllocator.Build [true; true])) as Hthrown
    by reflexivity.
  split; [exact Hthrown|].
  exact (proj1 (allocate_failure_changes_nothing 8 4096 2) _ _ _ Hthrown).
Defined.

(** ** [HeapAllocator] *)

Section heap_algorithms_permute.
Import HeapAllocator.

(** Filling the hole at [i] with the entry at [j] and moving the hole
    to [j] does not change the entries that the array holds once the
    hole is filled. *)
Lemma hole_move (a : list Entry) i j x :
  (i < length a)%nat -> (j < length a)%nat -> i <> j ->
  <[j := x]> (<[i := a !!! j]> a) ≡ₚ <[i := x]> a.
Proof.
  intros Hi Hj Hne.
  pose proof (Permutation_insert_swap (<[i := x]> a) i j x (a !!! j)) as Hswap.
  rewrite list_insert_insert_eq in Hswap. apply Hswap.
  - by apply list_lookup_insert_eq.
  - rewrite list_lookup_insert_ne by done. by apply list_lookup_lookup_total_lt.
Qed.

Lemma push_heap_loop_perm fuel a holeIndex topIndex value :
  (holeIndex < length a)%nat ->
  push_heap_loop fuel a holeIndex topIndex value ≡ₚ <[holeIndex := value]> a.
Proof.
  revert a holeIndex.
  induction fuel as [|fuel IH]; intros a holeIndex Hhole; cbn [push_heap_loop]; [done|].
  destruct (topIndex <? holeIndex)%nat eqn:Htop; cbn [andb]; [|done].
  destruct (Entry_lt _ value); [|done].
  apply Nat.ltb_lt in Htop.
  assert ((holeIndex - 1) / 2 < holeIndex)%nat as Hparent.
  { apply Nat.Div0.div_lt_upper_bound. lia. }
  rewrite IH by (rewrite length_insert; lia).
  apply hole_move; lia.
Qed.

Lemma adjust_heap_loop_perm fuel a holeIndex len :
  (holeIndex < len <= length a)%nat ->
  exists a' hole',
    adjust_heap_loop fuel a holeIndex holeIndex len = (a', hole', hole') /\
    (hole' < len)%nat /\ length a' = length a /\
    forall x, <[hole' := x]> a' ≡ₚ <[holeIndex := x]> a.
Proof.
  revert a holeIndex.
  induction fuel as [|fuel IH]; intros a holeIndex Hhole; cbn [adjust_heap_loop].
  - exists a, holeIndex. split; [done|]. split; [lia|done].
  - destruct (holeIndex <? (len - 1) / 2)%nat eqn:Hsc;
      [|exists a, holeIndex; split; [done|]; split; [lia|done]].
    apply Nat.ltb_lt in Hsc.
    pose proof (Nat.Div0.mul_div_le (len - 1) 2) as Hdiv.
    set (sc := if Entry_lt (a !!! (2 * (holeIndex + 1))%nat)
                           (a !!! (2 * (holeIndex + 1) - 1)%nat)
               then (2 * (holeIndex + 1) - 1)%nat else (2 * (holeIndex + 1))%nat).
    assert (holeIndex < sc < len)%nat as Hrange by (unfold sc; destruct (Entry_lt _ _); lia).
    destruct (IH (<[holeIndex := a !!! sc]> a) sc) as (a' & hole' & Heq & Hlt & Hlen & Hperm).
    { rewrite length_insert. lia. }
    exists a', hole'. split; [exact Heq|]. split; [done|].
    split; [by rewrite Hlen, length_insert|].
    intros x. rewrite Hperm. apply hole_move; lia.
Qed.

Lemma adjust_heap_perm a holeIndex len value :
  (holeIndex < len <= length a)%nat ->
  __adjust_heap a holeIndex len value ≡ₚ <[holeIndex := value]> a.
Proof.
  intros Hhole. unfold __adjust_heap.
  destruct (adjust_heap_loop_perm len a holeIndex len Hhole)
    as (a' & hole' & -> & Hlt & Hlen & Hperm).
  destruct (Nat.even len && (hole' =? (len - 2) / 2)%nat) eqn:Heven; unfold __push_heap.
  - apply andb_true_iff in Heven as [[k ->]%Nat.even_spec ->%Nat.eqb_eq].
    assert ((2 * k - 2) / 2 = k - 1)%nat as Hk.
    { replace (2 * k - 2)%nat with ((k - 1) * 2)%nat by lia. apply Nat.div_mul. lia. }
    rewrite Hk in *.
    rewrite push_heap_loop_perm by (rewrite length_insert; lia).
    rewrite hole_move by lia. apply Hperm.
  - rewrite push_heap_loop_perm by lia. apply Hperm.
Qed.

(** The three library operations rearrange the entries of the array
    and neither lose nor duplicate one. *)
Lemma pop_heap_perm a : pop_heap a ≡ₚ a.
Proof.
  unfold pop_heap. destruct (1 <? length a)%nat eqn:Hlen; [|done].
  apply Nat.ltb_lt in Hlen.
  rewrite adjust_heap_perm by (rewrite length_insert; lia).
  apply Permutation_insert_swap; apply list_lookup_lookup_total_lt; lia.
Qed.

Lemma push_heap_perm a : push_heap a ≡ₚ a.
Proof.
  unfold push_heap. destruct a as [|e a]; [done|]. unfold __push_heap.
  rewrite push_heap_loop_perm by (simpl; lia).
  rewrite list_insert_id; [done|]. apply list_lookup_lookup_total_lt. simpl. lia.
Qed.

Lemma make_heap_loop_perm parent a :
  (parent < length a)%nat -> make_heap_loop parent a ≡ₚ a.
Proof.
  revert a. induction parent as [|parent IH]; intros a Hparent; simpl.
  - rewrite adjust_heap_perm by lia.
    rewrite list_insert_id; [done|]. by apply list_lookup_lookup_total_lt.
  - rewrite IH by (rewrite adjust_heap_length; lia).
    rewrite adjust_heap_perm by lia.
    rewrite list_insert_id; [done|]. by apply list_lookup_lookup_total_lt.
Qed.

Lemma make_heap_perm a : make_heap a ≡ₚ a.
Proof.
  unfold make_heap. destruct (length a <? 2)%nat eqn:Hlen; [done|].
  apply Nat.ltb_ge in Hlen. apply make_heap_loop_perm.
  pose proof (Nat.Div0.mul_div_le (length a - 2) 2). lia.
Qed.

End heap_algorithms_permute.

(** X6. [HeapAllocator]'s constructor: the entry array holds one [FREE]
    entry for each of the [N] slots of the backing store and nothing
    else, in the order that [std::make_heap] leaves them, and the
    counter is [N]. *)
Theorem Heap_constructor_entries sz base N :
  Z.of_nat N <= INT_MAX ->
  HeapAllocator.m_entry (HeapAllocator.init sz base N)
  ≡ₚ map (fun i => HeapAllocator.mkEntry HeapAllocator.FREE (slot sz base i)) (seq 0 N) /\
  HeapAllocator.m_available (HeapAllocator.init sz base N) = Z.of_nat N.
Proof.
  intros HN. split; [apply make_heap_perm|].
  simpl. apply int_wrap_id. unfold INT_MAX in *. lia.
Qed.

Lemma Heap_constructor_entries_witness :
  Z.of_nat 5 <= INT_MAX /\
  HeapAllocator.m_entry (HeapAllocator.init 8 4096 5)
  ≡ₚ map (fun i => HeapAllocator.mkEntry HeapAllocator.FREE (slot 8 4096 i)) (seq 0 5) /\
  HeapAllocator.m_available (HeapAllocator.init 8 4096 5) = Z.of_nat 5.
Proof.
  assert (Z.of_nat 5 <= INT_MAX) as HN by (unfold INT_MAX; lia).
  split; [exact HN|]. exact (Heap_constructor_entries 8 4096 5 HN).
Defined.

(** An allocator that does what another does or is undefined goes
    through a call sequence as the other does, or crashes. *)
Lemma run_refines {St} (A1 A2 : Allocator St) (cap : nat) (cs : list call) (s : St) out :
  (forall s, allocate (Allocator := A1) s = Undefined \/
             allocate (Allocator := A1) s = allocate (Allocator := A2) s) ->
  (forall q s, deallocate (Allocator := A1) q s = Undefined \/
               deallocate (Allocator := A1) q s = deallocate (Allocator := A2) q s) ->
  run (H := A1) cap cs s out = Crashed \/
  run (H := A1) cap cs s out = run (H := A2) cap cs s out.
Proof.
  intros Halloc Hfree. revert s out. induction cs as [|c cs IH]; intros s out; [by right|].
  destruct c as [|q]; cbn [run].
  - case_decide; [|by right].
    destruct (Halloc s) as [->| ->]; [by left|].
    destruct (allocate (Allocator := A2) s); [apply IH|by right..].
  - case_decide; [|by right].
    destruct (Hfree q s) as [->| ->]; [by left|].
    destruct (deallocate (Allocator := A2) q s); [apply IH|by right..].
Qed.

Lemma Heap_allocate_iso_refines (s : HeapAllocator.t) :
  HeapAllocator.allocate_iso s = Undefined \/
  HeapAllocator.allocate_iso s = HeapAllocator.allocate s.
Proof.
  unfold HeapAllocator.allocate_iso, HeapAllocator.allocate, HeapAllocator.pop_heap_iso.
  destruct (_ <=? 0); [by right|]. destruct (_ !! _); [|by right].
  destruct (_ && _); [by right|by left].
Qed.

Lemma Heap_deallocate_iso_refines N q (s : HeapAllocator.t) :
  HeapAllocator.deallocate_iso N q s = Undefined \/
  HeapAllocator.deallocate_iso N q s = HeapAllocator.deallocate N q s.
Proof.
  unfold HeapAllocator.deallocate_iso, HeapAllocator.deallocate, HeapAllocator.push_heap_iso.
  case_decide; [by right|]. destruct (_ <=? _); [by right|].
  case_decide; [|by right]. destruct (_ && _); [by right|by left].
Qed.

Lemma Heap_run_iso_refines N cap cs (s : HeapAllocator.t) out :
  run (H := HeapAllocator_iso_Allocator N) cap cs s out = Crashed \/
  run (H := HeapAllocator_iso_Allocator N) cap cs s out
  = run (H := HeapAllocator_Allocator N) cap cs s out.
Proof.
  apply run_refines.
  - apply Heap_allocate_iso_refines.
  - apply Heap_deallocate_iso_refines.
Qed.

(** X7. [HeapAllocator], with [std::pop_heap] and [std::push_heap]
    under the preconditions of the standard: on every call sequence in
    which the client asks for a slot only while it holds fewer than [N]
    pointers and gives back only pointers it holds, never the null
    pointer, no call of [allocate] throws; and as long as no call is
    undefined (an index outside [m_entry], or a heap algorithm called on
    a range that is not a heap), the counter [m_available] is [N] minus
    the number of pointers held. *)
Theorem Heap_counter_exact_when_defined sz base N cs :
  layout_ok sz base N ->
  Forall (fun c => c <> Dealloc nullptr) cs ->
  match run (H := HeapAllocator_iso_Allocator N) N cs (HeapAllocator.init sz base N) [] with
  | Finished s out =>
      HeapAllocator.m_available s = Z.of_nat N - Z.of_nat (length out) /\
      length (HeapAllocator.m_entry s) = N
  | Raised _ => False
  | Crashed | Misused => True
  end.
Proof.
  intros Hlay Hcs.
  pose proof (Heap_run_nonnull sz base N Hlay cs _ _ (Heap_inv_init sz base N Hlay) Hcs)
    as Hrun.
  destruct (Heap_run_iso_refines N N cs (HeapAllocator.init sz base N) []) as [->| ->];
    [done|].
  destruct (run N cs (HeapAllocator.init sz base N) []) as [s out| | |]; try done.
  by destruct Hrun as (Hlen & _ & Hav).
Qed.

Lemma Heap_counter_exact_when_defined_witness :
  layout_ok 8 4096 5 /\
  Forall (fun c => c <> Dealloc nullptr) [Alloc; Alloc; Dealloc 4096; Alloc] /\
  match run (H := HeapAllocator_iso_Allocator 5) 5 [Alloc; Alloc; Dealloc 4096; Alloc]
          (HeapAllocator.init 8 4096 5) [] with
  | Finished s out =>
      HeapAllocator.m_available s = Z.of_nat 5 - Z.of_nat (length out) /\
      length (HeapAllocator.m_entry s) = 5%nat
  | Raised _ => False
  | Crashed | Misused => True
  end.
Proof.
  assert (layout_ok 8 4096 5) as Hlay by (apply layout_example; lia).
  assert (Forall (fun c => c <> Dealloc nullptr) [Alloc; Alloc; Dealloc 4096; Alloc]) as Hcs.
  { repeat constructor; discriminate. }
  split; [exact Hlay|]. split; [exact Hcs|].
  exact (Heap_counter_exact_when_defined 8 4096 5 [Alloc; Alloc; Dealloc 4096; Alloc] Hlay Hcs).
Defined.

(** A pointer into the backing store: the address of one of its slots. *)
Definition in_store (sz base : Z) (N : nat) (q : ptr) : Prop :=
  exists i, (i < N)%nat /\ q = slot sz base i.

(** An entry as the allocator writes them: used with a null pointer, or
    free with the address of a slot. *)
Definition Entry_ok (sz base : Z) (N : nat) (e : HeapAllocator.Entry) : Prop :=
  (HeapAllocator.state e = HeapAllocator.USED /\ HeapAllocator.p e = nullptr) \/
  (HeapAllocator.state e = HeapAllocator.FREE /\ in_store sz base N (HeapAllocator.p e)).

Definition Heap_sound (sz base : Z) (N : nat) (s : HeapAllocator.t) (out : list ptr) : Prop :=
  length (HeapAllocator.m_entry s) = N /\
  0 <= HeapAllocator.m_available s <= Z.of_nat N /\
  Forall (Entry_ok sz base N) (HeapAllocator.m_entry s) /\
  Forall (fun q => q = nullptr \/ in_store sz base N q) out.

Lemma Heap_sound_init sz base N :
  layout_ok sz base N -> Heap_sound sz base N (HeapAllocator.init sz base N) [].
Proof.
  intros Hlay. destruct (Heap_constructor_entries sz base N) as [Hperm Hav].
  { by destruct Hlay as (_ & _ & HN & _). }
  split; [by apply Heap_init_length|]. split; [lia|]. split; [|constructor].
  rewrite Hperm. apply Forall_forall. intros e He%list_elem_of_In.
  apply in_map_iff in He as (i & <- & Hi). apply in_seq in Hi.
  right. split; [done|]. exists i. split; [lia|done].
Qed.

Lemma Heap_sound_run sz base N cap cs s out :
  layout_ok sz base N -> Heap_sound sz base N s out ->
  match run (H := HeapAllocator_Allocator N) cap cs s out with
  | Finished s' out' => Heap_sound sz base N s' out'
  | Raised e => e = OutOfCapacity
  | Crashed => False
  | Misused => True
  end.
Proof.
  intros Hlay. pose proof Hlay as (Hsz & Hbase & HN & _).
  revert s out. induction cs as [|c cs IH]; intros s out Hs; [done|].
  destruct Hs as (Hlen & Hav & Hent & Hout). destruct c as [|q]; cbn [run].
  - case_decide as Hroom; [|done].
    cbn [allocate HeapAllocator_Allocator]. unfold HeapAllocator.allocate.
    destruct (Z.leb_spec (HeapAllocator.m_available s) 0) as [|Hpos]; [done|].
    destruct (HeapAllocator.m_entry s !! 0%nat) as [e|] eqn:He.
    2:{ apply lookup_ge_None in He. lia. }
    rewrite int_wrap_id by (unfold INT_MAX in *; lia).
    rewrite pop_heap_length, decide_True by lia.
    apply IH. unfold Heap_sound.
    cbn [HeapAllocator.m_entry HeapAllocator.m_available].
    split; [by rewrite length_insert, pop_heap_length|].
    split; [lia|]. split.
    + apply Forall_insert; [by rewrite pop_heap_perm|]. by left.
    + constructor; [|done].
      destruct (Forall_lookup_1 _ _ _ _ Hent He) as [[_ ->]|[_ Hin]]; [by left|by right].
  - case_decide as Hin; [|done].
    assert (Forall (fun q => q = nullptr \/ in_store sz base N q) (remove_first q out))
      as Hout'.
    { rewrite (remove_first_perm q out Hin) in Hout. by apply Forall_cons in Hout as [_ ?]. }
    cbn [deallocate HeapAllocator_Allocator]. unfold HeapAllocator.deallocate.
    destruct (decide (q = nullptr)) as [->|Hq]; [by apply IH|].
    rewrite size_t_of_id by (unfold SIZE_MAX, INT_MAX in *; lia).
    destruct (Z.leb_spec (Z.of_nat N) (HeapAllocator.m_available s)) as [|Hlt];
      [by apply IH|].
    rewrite decide_True by lia. apply IH. unfold Heap_sound.
    cbn [HeapAllocator.m_entry HeapAllocator.m_available].
    split; [by rewrite push_heap_length, length_insert|].
    rewrite int_wrap_id by (unfold INT_MAX in *; lia).
    split; [lia|]. split; [|done].
    rewrite push_heap_perm. apply Forall_insert; [done|]. right. split; [done|].
    destruct (proj1 (Forall_forall _ _) Hout q Hin) as [|]; [contradiction|done].
Qed.

(** X8. [HeapAllocator], with [std::pop_heap] and [std::push_heap]
    under the preconditions of the standard: on every call sequence in
    which the client gives back only pointers it holds, however many
    slots it asks for, the only exception is the one for exhaustion;
    and as long as no call is undefined (an index outside [m_entry], or
    a heap algorithm called on a range that is not a heap), every
    pointer that [allocate] has returned is the null pointer or the
    address of a slot of the backing store, the counter is between 0
    and [N], and every entry is either used with a null pointer or free
    with the address of a slot. *)
Theorem Heap_pointers_in_store_when_defined sz base N cap cs :
  layout_ok sz base N ->
  match run (H := HeapAllocator_iso_Allocator N) cap cs (HeapAllocator.init sz base N) [] with
  | Finished s out =>
      Forall (fun q => q = nullptr \/ in_store sz base N q) out /\
      0 <= HeapAllocator.m_available s <= Z.of_nat N /\
      Forall (Entry_ok sz base N) (HeapAllocator.m_entry s)
  | Raised e => e = OutOfCapacity
  | Crashed | Misused => True
  end.
Proof.
  intros Hlay.
  pose proof (Heap_sound_run sz base N cap cs _ _ Hlay (Heap_sound_init sz base N Hlay))
    as Hrun.
  destruct (Heap_run_iso_refines N cap cs (HeapAllocator.init sz base N) []) as [->| ->];
    [done|].
  destruct (run cap cs (HeapAllocator.init sz base N) []) as [s out| | |]; try done.
  by destruct Hrun as (_ & Hav & Hent & Hout).
Qed.

Lemma Heap_pointers_in_store_when_defined_witness :
  layout_ok 8 4096 3 /\
  match run (H := HeapAllocator_iso_Allocator 3) 9
          [Alloc; Alloc; Alloc; Dealloc 4096; Alloc]
          (HeapAllocator.init 8 4096 3) [] with
  | Finished s out =>
      Forall (fun q => q = nullptr \/ in_store 8 4096 3 q) out /\
      0 <= HeapAllocator.m_available s <= Z.of_nat 3 /\
      Forall (Entry_ok 8 4096 3) (HeapAllocator.m_entry s)
  | Raised e => e = OutOfCapacity
  | Crashed | Misused => True
  end.
Proof.
  assert (layout_ok 8 4096 3) as Hlay by (apply layout_example; lia).
  split; [exact Hlay|].
  exact (Heap_pointers_in_store_when_defined 8 4096 3 9
           [Alloc; Alloc; Alloc; Dealloc 4096; Alloc] Hlay).
Defined.

(** ** [BlockAllocator] *)

(** The memory [m] holds the free list [L] starting at [head]: the
    chunks of [L] in order, each non-null and linked to the next, the
    last one linked to null. *)
Inductive free_list (m : gmap Z ptr) : ptr -> list ptr -> Prop :=
| free_list_nil : free_list m nullptr []
| free_list_cons q next L :
    q <> nullptr -> m !! q = Some next -> free_list m next L -> free_list m q (q :: L).

Lemma free_list_insert m head L q v :
  q ∉ L -> free_list m head L -> free_list (<[q := v]> m) head L.
Proof.
  intros Hq Hlist. induction Hlist as [|c next L Hc Hnext Hlist IH]; [constructor|].
  apply not_elem_of_cons in Hq as [Hne Hq].
  econstructor; [done| |by apply IH]. by rewrite lookup_insert_ne.
Qed.

Lemma free_list_nonnull m head L : free_list m head L -> Forall (fun q => q <> nullptr) L.
Proof. induction 1; by constructor. Qed.

Lemma linked_free_list sz m head n i :
  0 < sz -> 0 < head -> linked sz m head n -> (i <= n)%nat ->
  free_list m (chunk_at sz head i) (chunk_at sz head <$> seq i (S n - i)).
Proof.
  intros Hsz Hhead [Hlink Hlast] Hi. remember (n - i)%nat as d eqn:Hd.
  revert i Hd Hi. induction d as [|d IH]; intros i Hd Hi.
  - assert (i = n) as -> by lia. rewrite Nat.sub_succ_l, Nat.sub_diag by done.
    econstructor; [unfold chunk_at, nullptr; nia|exact Hlast|constructor].
  - replace (S n - i)%nat with (S (S n - S i)) by lia.
    econstructor; [unfold chunk_at, nullptr; nia|apply Hlink; lia|apply IH; lia].
Qed.

(** X9. [BlockAllocator] keeps its free list as a stack.  On a
    well-formed free list, [deallocate] of a non-null chunk that is not
    in the list puts it in front, and [allocate] takes the chunk in
    front, without asking the system heap for memory and without the
    size check; so chunks come back most recently freed first. *)
Theorem Block_free_list_is_a_stack sz ptr_size K block_addr log m err head L :
  free_list m head L ->
  (forall q, q <> nullptr -> q ∉ L ->
     exists m',
       BlockAllocator.deallocate q
         (BlockAllocator.Build head (BlockAllocator.mkWorld log m err))
       = Returned tt (BlockAllocator.Build q (BlockAllocator.mkWorld log m' err)) /\
       free_list m' q (q :: L)) /\
  (forall c L', L = c :: L' ->
     exists head',
       BlockAllocator.allocate sz ptr_size K block_addr
         (BlockAllocator.Build head (BlockAllocator.mkWorld log m err))
       = Returned c (BlockAllocator.Build head' (BlockAllocator.mkWorld log m err)) /\
       free_list m head' L').
Proof.
  intros Hlist. split.
  - intros q Hq Hfresh. exists (<[q := head]> m). split.
    + unfold BlockAllocator.deallocate. by rewrite decide_False.
    + econstructor; [done|apply lookup_insert_eq|by apply free_list_insert].
  - intros c L' ->. inversion Hlist as [|c' next L'' Hc Hnext Htail]; subst.
    exists next. split; [|done].
    by apply (Block_allocate_pop sz ptr_size K block_addr).
Qed.

Lemma Block_free_list_is_a_stack_witness :
  free_list {[4096 := 0]} 4096 [4096] /\
  (exists m',
     BlockAllocator.deallocate 4104
       (BlockAllocator.Build 4096 (BlockAllocator.mkWorld [32] {[4096 := 0]} []))
     = Returned tt (BlockAllocator.Build 4104 (BlockAllocator.mkWorld [32] m' [])) /\
     free_list m' 4104 [4104; 4096]) /\
  (exists head',
     BlockAllocator.allocate 8 8 4 (fun _ => 4096)
       (BlockAllocator.Build 4096 (BlockAllocator.mkWorld [32] {[4096 := 0]} []))
     = Returned 4096 (BlockAllocator.Build head' (BlockAllocator.mkWorld [32] {[4096 := 0]} [])) /\
     free_list {[4096 := 0]} head' []).
Proof.
  assert (free_list {[4096 := 0]} 4096 [4096]) as Hlist.
  { econstructor; [done|apply lookup_singleton_eq|constructor]. }
  split; [exact Hlist|].
  pose proof (Block_free_list_is_a_stack 8 8 4 (fun _ => 4096) [32] {[4096 := 0]} []
                4096 [4096] Hlist) as [Hpush Hpop].
  split.
  - apply Hpush; [done|]. intros Hin%list_elem_of_singleton. discriminate Hin.
  - by apply Hpop.
Defined.

Lemma thread_chunks_iso_end ptr_size n chunk_size head block_size chunk m m' chunk' :
  BlockAllocator.thread_chunks_iso ptr_size n chunk_size head block_size chunk m
  = Some (m', chunk') ->
  chunk' = chunk + Z.of_nat n * chunk_size.
Proof.
  revert chunk m. induction n as [|n IH]; intros chunk m; cbn [BlockAllocator.thread_chunks_iso].
  - intros [= _ <-]. lia.
  - destruct (BlockAllocator.link_in_block _ _ _ _); [|done].
    intros ->%IH. lia.
Qed.

Lemma thread_chunks_final n chunk_size chunk m :
  (BlockAllocator.thread_chunks n chunk_size chunk m).2 = chunk + Z.of_nat n * chunk_size.
Proof.
  revert chunk m. induction n as [|n IH]; intros chunk m; cbn [BlockAllocator.thread_chunks].
  - simpl. lia.
  - rewrite IH. lia.
Qed.

(** X10. [BlockAllocator::allocate_block] writes past the block it
    requests: its last store, the null link, goes to the address
    [head + ChunksPerBlock * chunk_size], where the block ends, so the
    link word stored there is outside the block.  Under the standard,
    where such a store is undefined, every call of [allocate] that finds
    the free list empty, for a type at least as large as a pointer, is
    undefined: the allocator cannot hand out a chunk of a block it has
    requested within the rules of the language. *)
Theorem Block_refill_overruns_its_block sz ptr_size K block_addr (s : BlockAllocator.t) :
  0 < ptr_size -> 0 <= sz * Z.of_nat K <= SIZE_MAX ->
  BlockAllocator.m_head s = nullptr ->
  (forall head w,
     BlockAllocator.allocate_block K block_addr sz (BlockAllocator.env s) = Some (head, w) ->
     BlockAllocator.memory w !! (head + sz * Z.of_nat K) = Some nullptr /\
     BlockAllocator.link_in_block ptr_size head (sz * Z.of_nat K) (head + sz * Z.of_nat K)
     = false) /\
  (ptr_size <= sz -> BlockAllocator.allocate_iso sz ptr_size K block_addr s = Undefined).
Proof.
  intros Hptr Hsize Hempty. split.
  - intros head w. unfold BlockAllocator.allocate_block.
    case_decide; [done|].
    pose proof (thread_chunks_final K sz (block_addr (length (BlockAllocator.malloc_log
                  (BlockAllocator.env s)))) (BlockAllocator.memory (BlockAllocator.env s)))
      as Hend.
    destruct (BlockAllocator.thread_chunks _ _ _ _) as [m chunk]. simpl in Hend.
    intros [= <- <-]. cbn [BlockAllocator.memory]. split.
    + subst chunk. rewrite Z.mul_comm. apply lookup_insert_eq.
    + unfold BlockAllocator.link_in_block. apply andb_false_iff. right.
      apply Z.leb_gt. lia.
  - intros Hfit. unfold BlockAllocator.allocate_iso. rewrite decide_True by done.
    destruct (Z.ltb_spec sz ptr_size) as [|_]; [lia|].
    unfold BlockAllocator.allocate_block_iso. case_decide; [done|].
    rewrite size_t_of_id by done.
    destruct (BlockAllocator.thread_chunks_iso _ _ _ _ _ _ _) as [[m chunk]|] eqn:Hthread;
      [|done].
    apply thread_chunks_iso_end in Hthread as ->.
    assert (BlockAllocator.link_in_block ptr_size
              (block_addr (length (BlockAllocator.malloc_log (BlockAllocator.env s))))
              (sz * Z.of_nat K)
              (block_addr (length (BlockAllocator.malloc_log (BlockAllocator.env s)))
               + Z.of_nat K * sz) = false) as ->; [|done].
    unfold BlockAllocator.link_in_block. apply andb_false_iff. right.
    apply Z.leb_gt. lia.
Qed.

Lemma Block_refill_overruns_its_block_witness :
  0 < 8 /\ 0 <= 8 * Z.of_nat 4 <= SIZE_MAX /\
  BlockAllocator.m_head BlockAllocator.init = nullptr /\
  (forall head w,
     BlockAllocator.allocate_block 4 (fun _ => 4096) 8 (BlockAllocator.env BlockAllocator.init)
     = Some (head, w) ->
     BlockAllocator.memory w !! (head + 8 * Z.of_nat 4) = Some nullptr /\
     BlockAllocator.link_in_block 8 head (8 * Z.of_nat 4) (head + 8 * Z.of_nat 4) = false) /\
  (8 <= 8 -> BlockAllocator.allocate_iso 8 8 4 (fun _ => 4096) BlockAllocator.init = Undefined).
Proof.
  assert (0 < 8) as Hptr by lia.
  assert (0 <= 8 * Z.of_nat 4 <= SIZE_MAX) as Hsize by (unfold SIZE_MAX; lia).
  split; [exact Hptr|]. split; [exact Hsize|]. split; [reflexivity|].
  exact (Block_refill_overruns_its_block 8 8 4 (fun _ => 4096) BlockAllocator.init
           Hptr Hsize eq_refl).
Defined.

(** X12. [BlockAllocator::deallocate] does not detect a chunk given
    back twice: the second call links the chunk to itself, and from
    then on every call of [allocate] returns that same chunk, the free
    list never becomes empty and no new block is requested. *)
Theorem Block_double_free_cycles sz ptr_size K block_addr (s : BlockAllocator.t) (q : ptr) :
  q <> nullptr ->
  exists s1 s2,
    BlockAllocator.deallocate q s = Returned tt s1 /\
    BlockAllocator.deallocate q s1 = Returned tt s2 /\
    BlockAllocator.malloc_log (BlockAllocator.env s2)
    = BlockAllocator.malloc_log (BlockAllocator.env s) /\
    forall k,
      allocate_n (H := BlockAllocator_Allocator sz ptr_size K block_addr) k s2
      = Returned (replicate k q) s2.
Proof.
  intros Hq. destruct s as [head [log m err]].
  eexists _, _. unfold BlockAllocator.deallocate. rewrite !decide_False by done.
  split; [reflexivity|]. split; [reflexivity|]. split; [reflexivity|].
  cbn [BlockAllocator.m_head BlockAllocator.env BlockAllocator.malloc_log
       BlockAllocator.memory BlockAllocator.cerr].
  intros k. induction k as [|k IH]; [done|].
  rewrite allocate_n_S.
  rewrite (Block_allocate_pop sz ptr_size K block_addr _ _ _ q q Hq)
    by apply lookup_insert_eq.
  by rewrite IH.
Qed.

Lemma Block_double_free_cycles_witness :
  4096 <> nullptr /\
  exists s1 s2,
    BlockAllocator.deallocate 4096 BlockAllocator.init = Returned tt s1 /\
    BlockAllocator.deallocate 4096 s1 = Returned tt s2 /\
    BlockAllocator.malloc_log (BlockAllocator.env s2)
    = BlockAllocator.malloc_log (BlockAllocator.env BlockAllocator.init) /\
    forall k,
      allocate_n (H := BlockAllocator_Allocator 8 8 4 (fun _ => 4096)) k s2
      = Returned (replicate k 4096) s2.
Proof.
  assert (4096 <> nullptr) as Hq by done.
  split; [exact Hq|].
  exact (Block_double_free_cycles 8 8 4 (fun _ => 4096) BlockAllocator.init 4096 Hq).
Defined.

(** ** [ObjectPool] *)

(** What the client of a pool sees of a verdict about the wrapped
    allocator. *)
Definition pool_verdict {St} (v : verdict St) : verdict (ObjectPool.t (St := St)) :=
  match v with
  | Finished s out => Finished (ObjectPool.Build s) out
  | Raised e => Raised e
  | Crashed => Crashed
  | Misused => Misused
  end.

(** X13. [ObjectPool] adds no bookkeeping of its own: for a client that
    always asks for [sizeof(T)] bytes, as [operator new] does, every
    call sequence on the pool gives what the same sequence gives on the
    wrapped allocator: the same pointers, the same exception or
    undefined behaviour, and the wrapped allocator in the same state. *)
Theorem ObjectPool_is_transparent {St} `{Allocator St} (sizeof_T : Z) (cap : nat)
    (cs : list call) (s : St) (out : list ptr) :
  run (H := ObjectPool_Allocator sizeof_T) cap cs (ObjectPool.Build s) out
  = pool_verdict (run cap cs s out).
Proof.
  revert s out. induction cs as [|c cs IH]; intros s out; [done|].
  destruct c as [|q]; cbn [run].
  - case_decide; [|done].
    cbn [allocate ObjectPool_Allocator]. unfold ObjectPool.allocate.
    rewrite decide_False by auto. cbn [ObjectPool.m_allocator].
    destruct (allocate s) as [q s'| |]; cbn [ObjectPool.on_member]; [apply IH|done..].
  - case_decide; [|done].
    cbn [deallocate ObjectPool_Allocator]. unfold ObjectPool.deallocate.
    cbn [ObjectPool.m_allocator].
    destruct (deallocate q s) as [u s'| |]; cbn [ObjectPool.on_member]; [apply IH|done..].
Qed.

(** ** Exhaustion of [ArrayAllocator] and [StackAllocator] *)

(** X15. [ArrayAllocator] and [StackAllocator]: on a fresh instance of
    capacity [N], [N] calls of [allocate] return the addresses of the
    slots 0, 1, ..., [N - 1] of the backing store in this order, hence
    [N] different slots, and the next call throws the exception for
    exhaustion and leaves the allocator as it was. *)
Theorem Array_Stack_exhaustion sz base N junk :
  layout_ok sz base N ->
  (allocate_n (H := ArrayAllocator_Allocator sz base N) N (ArrayAllocator.init N)
   = Returned (slot sz base <$> seq 0 N) (ArrayAllocator.Build (replicate N true)) /\
   ArrayAllocator.allocate sz base N (ArrayAllocator.Build (replicate N true))
   = Thrown OutOfCapacity (ArrayAllocator.Build (replicate N true))) /\
  (allocate_n (H := StackAllocator_Allocator sz base N) N (StackAllocator.init junk)
   = Returned (slot sz base <$> seq 0 N) (StackAllocator.Build junk (Z.of_nat N) 0) /\
   StackAllocator.allocate sz base N (StackAllocator.Build junk (Z.of_nat N) 0)
   = Thrown OutOfCapacity (StackAllocator.Build junk (Z.of_nat N) 0)) /\
  NoDup (slot sz base <$> seq 0 N).
Proof.
  intros Hlay. split; [|split].
  - split; [apply (Array_allocate_n_prefix sz base N N 0); lia|].
    apply (Array_allocate_full sz base N); [apply length_replicate|].
    intros j Hj. by apply lookup_replicate.
  - split; [apply (Stack_allocate_n_bump sz base N Hlay junk N 0); lia|].
    by apply (Stack_allocate_exhausted sz base N).
  - destruct Hlay as (Hsz & _).
    apply NoDup_fmap_2; [|apply NoDup_seq]. intros i j. by apply slot_inj.
Qed.

Lemma Array_Stack_exhaustion_witness :
  layout_ok 8 4096 3 /\
  (allocate_n (H := ArrayAllocator_Allocator 8 4096 3) 3 (ArrayAllocator.init 3)
   = Returned (slot 8 4096 <$> seq 0 3) (ArrayAllocator.Build (replicate 3 true)) /\
   ArrayAllocator.allocate 8 4096 3 (ArrayAllocator.Build (replicate 3 true))
   = Thrown OutOfCapacity (ArrayAllocator.Build (replicate 3 true))) /\
  (allocate_n (H := StackAllocator_Allocator 8 4096 3) 3 (StackAllocator.init [7; 7; 7])
   = Returned (slot 8 4096 <$> seq 0 3) (StackAllocator.Build [7; 7; 7] (Z.of_nat 3) 0) /\
   StackAllocator.allocate 8 4096 3 (StackAllocator.Build [7; 7; 7] (Z.of_nat 3) 0)
   = Thrown OutOfCapacity (StackAllocator.Build [7; 7; 7] (Z.of_nat 3) 0)) /\
  NoDup (slot 8 4096 <$> seq 0 3).
Proof.
  assert (layout_ok 8 4096 3) as Hlay by (apply layout_example; lia).
  split; [exact Hlay|]. exact (Array_Stack_exhaustion 8 4096 3 [7; 7; 7] Hlay).
Defined.
